(** * layout_postproc: bounding boxes, the two-pass walker and the layout plan

    A shallow embedding of [src/layout_postproc.py].

    Conventions of the embedding:
    - a Python [float] is the rational it denotes ([Qc], canonical
      fractions, so that equal numbers are equal terms). The scaling
      analysis is the one place where the program tests two computed numbers
      for equality, and there the numbers are rounded as Python rounds
      them: what [float] reads, the product by ten and the two quotients
      are the nearest binary64 numbers ([binary64]). Everywhere else sums,
      differences, products and quotients are exact. Infinities and NaN are
      outside the model;
    - svg.path is not part of the source: what [parse_path] reads is kept
      in the attribute, and what [Path.d()] does, the exception it raises
      or the path it prints, is a parameter of the walker ([Printer]);
    - [sys.exit(1)] and the exceptions the interpreter raises are outcomes of
      their own, so that a run that stops is told from one that returns;
    - an [ET.Element] is a tag, a string-keyed attribute dictionary and a
      list of children; in-place mutation is explicit state passing: a
      function that mutates an element returns the element it leaves. *)

From Stdlib Require Import Ascii QArith Qcanon Lqa.
From stdpp Require Import base option numbers strings list gmap.

Open Scope Qc_scope.

(** ** Outcomes of a call *)

(** The messages printed before [sys.exit(1)]. *)
Inductive Failure :=
  | UnsupportedUnit
  | AnisotropicScaling
  | UnknownElement (tag : string)
  | UnsupportedPathCommand.

#[global] Instance Failure_eq_dec : EqDecision Failure.
Proof. solve_decision. Defined.

(** Every [sys.exit] of the program passes the status 1. *)
Definition exit_status (f : Failure) : Z := 1%Z.

(** The exceptions the interpreter raises on the modelled operations. *)
Inductive PyError :=
  | KeyError (key : string)
  | TypeError
  | ValueError
  | ZeroDivisionError
  | IndexError.

#[global] Instance PyError_eq_dec : EqDecision PyError.
Proof. solve_decision. Defined.

Inductive Outcome (A : Type) :=
  | Ok (a : A)
  | Exit (f : Failure)
  | Raise (e : PyError)
  | OutOfFuel.
Arguments Ok {A} a.
Arguments Exit {A} f.
Arguments Raise {A} e.
Arguments OutOfFuel {A}.

#[global] Instance Outcome_eq_dec `{EqDecision A} : EqDecision (Outcome A).
Proof. solve_decision. Defined.

Definition outcome_bind {A B} (f : A → Outcome B) (m : Outcome A) : Outcome B :=
  match m with
  | Ok a => f a
  | Exit r => Exit r
  | Raise e => Raise e
  | OutOfFuel => OutOfFuel
  end.

Definition outcome_map {A B} (f : A → B) (m : Outcome A) : Outcome B :=
  match m with
  | Ok a => Ok (f a)
  | Exit r => Exit r
  | Raise e => Raise e
  | OutOfFuel => OutOfFuel
  end.

#[global] Instance outcome_ret : MRet Outcome := @Ok.
#[global] Instance outcome_mbind : MBind Outcome := @outcome_bind.
#[global] Instance outcome_fmap : FMap Outcome := @outcome_map.

(** A run that stops: by [sys.exit] or by an uncaught exception. *)
Definition stopped {A} (m : Outcome A) : bool :=
  match m with
  | Exit _ | Raise _ => true
  | Ok _ | OutOfFuel => false
  end.

(** ** Numbers and points *)

Notation "# q" := (Q2Qc q) (at level 1, format "# q") : Qc_scope.

(** Python's [complex]: [real] and [imag]. *)
Record complex := Complex { real : Qc; imag : Qc }.

#[global] Instance complex_eq_dec : EqDecision complex.
Proof. solve_decision. Defined.

(** [x / y] on floats: a zero divisor raises. *)
Definition py_div (x y : Qc) : Outcome Qc :=
  if bool_decide (y = 0) then Raise ZeroDivisionError else Ok (x / y).

(** ** Rounding *)

(** The integer nearest to [n / d], for [0 < d]; of two integers at the same
    distance the even one. *)
Definition round_half_even (n d : Z) : Z :=
  let q := (n / d)%Z in
  match (2 * (n mod d) ?= d)%Z with
  | Lt => q
  | Gt => (q + 1)%Z
  | Eq => if Z.even q then q else (q + 1)%Z
  end.

(** [base ^ e <= a / d], for [0 < d]. *)
Definition pow_le (base e a d : Z) : bool :=
  if (0 <=? e)%Z then (d * base ^ e <=? a)%Z else (d <=? a * base ^ (- e))%Z.

(** [n / d] in units of [base ^ e], rounded to an integer. *)
Definition scaled (base n d e : Z) : Z :=
  if (0 <=? e)%Z then round_half_even n (d * base ^ e)
  else round_half_even (n * base ^ (- e)) d.

(** [m * base ^ e] *)
Definition times_pow (base m e : Z) : Qc :=
  if (0 <=? e)%Z then Q2Qc (inject_Z (m * base ^ e))
  else Q2Qc (Qmake m (Z.to_pos (base ^ (- e)))).

(** The largest [k] with [2 ^ k <= a / d], for [0 < a] and [0 < d]. *)
Definition binary_exponent (a d : Z) : Z :=
  let e0 := (Z.log2 a - Z.log2 d)%Z in
  if pow_le 2 e0 a d then e0 else (e0 - 1)%Z.

(** The binary64 number nearest to [x], ties to the even significand: 53
    bits above [2 ^ -1022], multiples of [2 ^ -1074] below. It is what
    Python's [float] reads from a decimal text and what its [*] and [/]
    return for the exact product and quotient. A result beyond the largest
    binary64 number is Python's [inf] and outside the model. *)
Definition binary64 (x : Qc) : Qc :=
  let n := Qnum x in
  let d := Zpos (Qden x) in
  if (n =? 0)%Z then 0
  else
    let e := Z.max (binary_exponent (Z.abs n) d - 52) (-1074) in
    times_pow 2 (scaled 2 n d e) e.

(** The largest [k] with [10 ^ k <= a / d], for [0 < a] and [0 < d]: it is
    one of the four candidates around the binary estimate. *)
Definition decimal_exponent (a d : Z) : Z :=
  let hi := (((Z.log2 a - Z.log2 d + 1) * 30103) / 100000 + 1)%Z in
  if pow_le 10 hi a d then hi
  else if pow_le 10 (hi - 1) a d then (hi - 1)%Z
  else if pow_le 10 (hi - 2) a d then (hi - 2)%Z
  else (hi - 3)%Z.

(** The number that the format [G] prints for [x]: [x] rounded to six
    significant decimal digits, ties to even. *)
Definition format_G (x : Qc) : Qc :=
  let n := Qnum x in
  let d := Zpos (Qden x) in
  if (n =? 0)%Z then 0
  else
    let e := (decimal_exponent (Z.abs n) d - 5)%Z in
    times_pow 10 (scaled 10 n d e) e.

Arguments binary64 : simpl never.
Arguments format_G : simpl never.

(** ** Bounds: the four-slot list [MinX, MinY, MaxX, MaxY] *)

(** [b0 .. b3] are the slots [0 .. 3]; [None] is Python's [None]. *)
Record Bounds := mkBounds {
  b0 : option Qc;
  b1 : option Qc;
  b2 : option Qc;
  b3 : option Qc
}.

#[global] Instance Bounds_eq_dec : EqDecision Bounds.
Proof. solve_decision. Defined.

(** [[None, None, None, None]] *)
Definition unset_bounds : Bounds := mkBounds None None None None.

Definition box (x0 y0 x1 y1 : Qc) : Bounds :=
  mkBounds (Some x0) (Some y0) (Some x1) (Some y1).

(** The comparison of one slot of [merge_bounds]:
    [gate is not None and (d is None or s < d)], then [d = s]; [lt] is [<]
    for the minima and [>] for the maxima. [None < float] is a [TypeError]. *)
Definition merge_slot (lt : Qc → Qc → bool) (gate d s : option Qc)
    : Outcome (option Qc) :=
  match gate with
  | None => Ok d
  | Some _ =>
      match d with
      | None => Ok s
      | Some dv =>
          match s with
          | None => Raise TypeError
          | Some sv => Ok (if lt sv dv then s else d)
          end
      end
  end.

Definition Qc_ltb (x y : Qc) : bool := bool_decide (x < y).
Definition Qc_gtb (x y : Qc) : bool := bool_decide (y < x).

(** [merge_bounds(dest, src)], lines 34-42: every one of the four tests reads
    [src[0] is not None]. *)
Definition merge_bounds (dest src : Bounds) : Outcome Bounds :=
  d0 ← merge_slot Qc_ltb (b0 src) (b0 dest) (b0 src);
  d1 ← merge_slot Qc_ltb (b0 src) (b1 dest) (b1 src);
  d2 ← merge_slot Qc_gtb (b0 src) (b2 dest) (b2 src);
  d3 ← merge_slot Qc_gtb (b0 src) (b3 dest) (b3 src);
  mret (mkBounds d0 d1 d2 d3).

(** One slot of [update_bounds]: [d is None or v < d], then [d = v]. *)
Definition update_slot (lt : Qc → Qc → bool) (d : option Qc) (v : Qc) : option Qc :=
  match d with
  | None => Some v
  | Some dv => if lt v dv then Some v else d
  end.

(** [update_bounds(dest, point)], lines 48-56. *)
Definition update_bounds (dest : Bounds) (point : complex) : Bounds :=
  mkBounds (update_slot Qc_ltb (b0 dest) (real point))
           (update_slot Qc_ltb (b1 dest) (imag point))
           (update_slot Qc_gtb (b2 dest) (real point))
           (update_slot Qc_gtb (b3 dest) (imag point)).

(** ** Path commands (svg.path) *)

(** The command objects of svg.path; each carries [start] and [end]
    ([stop] here), the curves their control data. *)
Inductive Command :=
  | Line (start stop : complex)
  | Move (start stop : complex)
  | Close (start stop : complex)
  | CubicBezier (start control1 control2 stop : complex)
  | Arc (start radius : complex) (rotation : Qc) (arc sweep : bool) (stop : complex)
  | QuadraticBezier (start control stop : complex).

#[global] Instance Command_eq_dec : EqDecision Command.
Proof. solve_decision. Defined.

Definition cmd_start (c : Command) : complex :=
  match c with
  | Line s _ | Move s _ | Close s _ | CubicBezier s _ _ _
  | Arc s _ _ _ _ _ | QuadraticBezier s _ _ => s
  end.

Definition cmd_end (c : Command) : complex :=
  match c with
  | Line _ e | Move _ e | Close _ e | CubicBezier _ _ _ e
  | Arc _ _ _ _ _ e | QuadraticBezier _ _ e => e
  end.

(** Assignment to [command.start] and [command.end]. *)
Definition set_start_end (c : Command) (s e : complex) : Command :=
  match c with
  | Line _ _ => Line s e
  | Move _ _ => Move s e
  | Close _ _ => Close s e
  | CubicBezier _ c1 c2 _ => CubicBezier s c1 c2 e
  | Arc _ r rot a sw _ => Arc s r rot a sw e
  | QuadraticBezier _ c1 _ => QuadraticBezier s c1 e
  end.

(** [type(command) in [Line, Move, Close, CubicBezier, Arc]] *)
Definition supported_command (c : Command) : bool :=
  match c with
  | QuadraticBezier _ _ _ => false
  | _ => true
  end.

(** [manip_start_end(command, x_off, y_off)], lines 103-105. *)
Definition manip_start_end (command : Command) (x_off y_off : Qc) : Command :=
  set_start_end command
    (Complex (real (cmd_start command) + x_off) (imag (cmd_start command) + y_off))
    (Complex (real (cmd_end command) + x_off) (imag (cmd_end command) + y_off)).

(** The printing of a path. [Path.d()] of svg.path writes the commands of
    a path as a path description, every number with the format [G], and
    [parse_path] reads a description back; svg.path is not part of the
    source. [path_d cs] stands for what [Path.d()] does on the commands
    [cs]: it raises an exception, or it prints a description, which is kept
    as the commands that [parse_path] reads from it. The walker and [main]
    are defined for every printing. *)
Class Printer := path_d : list Command → PyError + list Command.

(** [path.d()] *)
Definition print_path {printer : Printer} (path : list Command)
    : Outcome (list Command) :=
  match path_d path with
  | inl e => Raise e
  | inr printed => Ok printed
  end.

(** [f] on every number of a command. *)
Definition map_point (f : Qc → Qc) (p : complex) : complex :=
  Complex (f (real p)) (f (imag p)).

Definition map_numbers (f : Qc → Qc) (c : Command) : Command :=
  match c with
  | Line s e => Line (map_point f s) (map_point f e)
  | Move s e => Move (map_point f s) (map_point f e)
  | Close s e => Close (map_point f s) (map_point f e)
  | CubicBezier s c1 c2 e =>
      CubicBezier (map_point f s) (map_point f c1) (map_point f c2) (map_point f e)
  | Arc s r rot a sw e =>
      Arc (map_point f s) (map_point f r) (f rot) a sw (map_point f e)
  | QuadraticBezier s c1 e =>
      QuadraticBezier (map_point f s) (map_point f c1) (map_point f e)
  end.

(** The printing of the closed examples: the commands are kept, and every
    number is printed with six significant digits and read back as a
    float; the path without commands raises, [Path.d()] reading the end of
    its last command first. The statements with a [Printer] among their
    variables hold for every printing; the statements without one are about
    this one. *)
#[global] Instance six_digit_printer : Printer := λ path,
  match path with
  | [] => inl IndexError
  | _ => inr (map (map_numbers (λ x, binary64 (format_G x))) path)
  end.

(** ** Elements *)

(** An attribute value is a string in the source; the model keeps the value
    the string denotes, and the parsers ([float], [parse_path], [split]) read
    it back: [str] then [float] gives the same number, and a path
    description is kept as the commands [parse_path] reads from it. In
    [VLen x unit] the unit begins where the digits of the number end. *)
Inductive Value :=
  | VText (s : string)               (* text that is no number and no path *)
  | VNum (x : Qc)                    (* [str(x)] *)
  | VLen (x : Qc) (unit : string)    (* [f'{x}{unit}'], as [12.5mm] *)
  | VNums (xs : list Qc)             (* numbers joined by one space *)
  | VPath (cs : list Command).       (* a path description *)

#[global] Instance Value_eq_dec : EqDecision Value.
Proof. solve_decision. Defined.

#[local] Set Warnings "-register-all".
Inductive Element := mkElement {
  tag : string;
  attrib : gmap string Value;
  children : list Element
}.

Definition set_attrib (k : string) (v : Value) (e : Element) : Element :=
  mkElement (tag e) (<[k := v]> (attrib e)) (children e).

Definition set_children (e : Element) (cs : list Element) : Element :=
  mkElement (tag e) (attrib e) cs.

(** [element.attrib[k]] *)
Definition get_attrib (k : string) (e : Element) : Outcome Value :=
  match attrib e !! k with
  | Some v => Ok v
  | None => Raise (KeyError k)
  end.

(** [float(s)] on an attribute that holds a number: the number it holds. *)
Definition py_float (v : Value) : Outcome Qc :=
  match v with
  | VNum x => Ok x
  | VLen x u => if bool_decide (u = "") then Ok x else Raise ValueError
  | VNums [x] => Ok x
  | _ => Raise ValueError
  end.

(** [parse_path(d)] *)
Definition parse_path (v : Value) : Outcome (list Command) :=
  match v with
  | VPath cs => Ok cs
  | _ => Raise ValueError
  end.

(** ** Configuration, lines 18-19 *)

Definition strip_tags : list string := ["text"].
Definition ignore_tags : list string := ["title"; "desc"].

(** ** Element handlers *)

(** The loop [for command in path] of [handle_path], lines 159-168; it
    returns the commands as it leaves them and the bounds. *)
Fixpoint path_loop (bounds_mode : bool) (x_off y_off : Qc)
    (path : list Command) (bounds : Bounds) : Outcome (list Command * Bounds) :=
  match path with
  | [] => Ok ([], bounds)
  | command :: rest =>
      if negb (supported_command command) then Exit UnsupportedPathCommand
      else if negb bounds_mode then
        '(rest', bounds') ← path_loop bounds_mode x_off y_off rest bounds;
        mret (manip_start_end command x_off y_off :: rest', bounds')
      else
        '(rest', bounds') ←
          path_loop bounds_mode x_off y_off rest
            (update_bounds (update_bounds bounds (cmd_start command)) (cmd_end command));
        mret (command :: rest', bounds')
  end.

(** [handle_path], lines 147-173: the bounds in bounds mode, [None] after
    rewriting [d] otherwise. The new [d] is what [path.d()] prints of the
    moved commands. *)
Definition handle_path {printer : Printer} (element : Element) (bounds_mode : bool)
    (x_off y_off : Qc) : Outcome (Element * option Bounds) :=
  d ← get_attrib "d" element;
  path ← parse_path d;
  '(path', bounds) ← path_loop bounds_mode x_off y_off path unset_bounds;
  if bounds_mode then mret (element, Some bounds)
  else
    printed ← print_path path';
    mret (set_attrib "d" (VPath printed) element, None).

(** [handle_circle], lines 179-184: the centre in bounds mode, [None] after
    moving the centre otherwise. *)
Definition handle_circle (element : Element) (bounds_mode : bool) (x_off y_off : Qc)
    : Outcome (Element * option complex) :=
  if bounds_mode then
    cx ← get_attrib "cx" element ≫= py_float;
    cy ← get_attrib "cy" element ≫= py_float;
    mret (element, Some (Complex cx cy))
  else
    cx ← get_attrib "cx" element ≫= py_float;
    let element := set_attrib "cx" (VNum (cx + x_off)) element in
    cy ← get_attrib "cy" element ≫= py_float;
    mret (set_attrib "cy" (VNum (cy + y_off)) element, None).

(** ** The walker *)

(** A value that must not be [None] where it is used. *)
Definition not_none {A} (o : option A) : Outcome A :=
  match o with
  | Some a => Ok a
  | None => Raise TypeError
  end.

(** [walk_group], lines 190-232. The [for element in group] loop reads
    [group[i]] for [i = 0, 1, ...] from the live child list until the index
    runs past its end, so the loop state is the index, the child list as
    left by the earlier iterations and the bounds. [group.remove(element)]
    deletes the child at the index; a nested group and a primitive are
    mutated in place, which is the replacement of the child at the index.
    [fuel] bounds the number of nested calls and iterations. *)
Fixpoint walk_group_fuel {printer : Printer} (fuel : nat) (group : Element)
    (bounds_mode : bool) (x_off y_off : Qc) : Outcome (Element * Bounds) :=
  match fuel with
  | O => OutOfFuel
  | S fuel =>
      '(cs, bounds) ←
        walk_loop fuel bounds_mode x_off y_off 0 (children group) unset_bounds;
      mret (set_children group cs, bounds)
  end
with walk_loop {printer : Printer} (fuel : nat) (bounds_mode : bool) (x_off y_off : Qc)
    (i : nat) (cs : list Element) (bounds : Bounds)
    : Outcome (list Element * Bounds) :=
  match fuel with
  | O => OutOfFuel
  | S fuel =>
      match cs !! i with
      | None => Ok (cs, bounds)
      | Some element =>
          if bool_decide (tag element ∈ ignore_tags) then
            walk_loop fuel bounds_mode x_off y_off (S i) cs bounds
          else if bool_decide (tag element ∈ strip_tags) then
            walk_loop fuel bounds_mode x_off y_off (S i) (delete i cs) bounds
          else if bool_decide (tag element = "g") then
            '(element', group_bounds) ←
              walk_group_fuel fuel element bounds_mode x_off y_off;
            bounds' ← (if bounds_mode then merge_bounds bounds group_bounds
                       else mret bounds);
            walk_loop fuel bounds_mode x_off y_off (S i) (<[i := element']> cs) bounds'
          else if bool_decide (tag element = "path") then
            '(element', path_bounds) ← handle_path element bounds_mode x_off y_off;
            bounds' ← (if bounds_mode then
                         path_bounds ← not_none path_bounds;
                         merge_bounds bounds path_bounds
                       else mret bounds);
            walk_loop fuel bounds_mode x_off y_off (S i) (<[i := element']> cs) bounds'
          else if bool_decide (tag element = "circle") then
            '(element', pos) ← handle_circle element bounds_mode x_off y_off;
            bounds' ← (if bounds_mode then
                         pos ← not_none pos;
                         mret (update_bounds bounds pos)
                       else mret bounds);
            walk_loop fuel bounds_mode x_off y_off (S i) (<[i := element']> cs) bounds'
          else Exit (UnknownElement (tag element))
      end
  end.

(** The nesting weight of an element: fuel that lets the walk finish. *)
Fixpoint weight (e : Element) : nat :=
  match e with
  | mkElement _ _ cs => S (S (list_sum (map weight cs)))
  end.

Definition walk_group {printer : Printer} (group : Element) (bounds_mode : bool)
    (x_off y_off : Qc) : Outcome (Element * Bounds) :=
  walk_group_fuel (weight group) group bounds_mode x_off y_off.

(** ** Utilities *)

(** [s.rindex(c)]: the last position of [c] in [s]. *)
Fixpoint rindex (c : Ascii.ascii) (s : string) : option nat :=
  match s with
  | EmptyString => None
  | String a rest =>
      match rindex c rest with
      | Some k => Some (S k)
      | None => if bool_decide (a = c) then Some 0%nat else None
      end
  end.

(** [s[n:]] *)
Fixpoint string_drop (n : nat) (s : string) : string :=
  match n, s with
  | O, _ => s
  | S n, String _ rest => string_drop n rest
  | S _, EmptyString => EmptyString
  end.

(** [normalize_tag(tagstr)], lines 27-28; [rindex] raises when there is no
    closing brace. *)
Definition normalize_tag (tagstr : string) : Outcome string :=
  match rindex "}"%char tagstr with
  | Some k => Ok (string_drop (k + 1) tagstr)
  | None => Raise ValueError
  end.

(** [s.endswith(suffix)] on the text of a value; the digits of a number hold
    no letter, so only the unit decides. *)
Definition ends_with (suffix : string) (v : Value) : bool :=
  match v with
  | VLen _ u => String.prefix (String.rev suffix) (String.rev u)
  | VText s => String.prefix (String.rev suffix) (String.rev s)
  | _ => false
  end.

(** The characters [float] strips from the ends of its text, a character
    being its code point: the codes 9 to 13, 32, 133 and 160. *)
Definition py_space (a : Ascii.ascii) : bool :=
  let n := nat_of_ascii a in
  ((9 <=? n) && (n <=? 13) || (n =? 32) || (n =? 133) || (n =? 160))%nat.

(** [float(s[:s.index(c)])]: the text before the first [c] is the number
    and what the unit holds before its first [c]. [float] reads the number,
    rounded to binary64, when the rest is white space; [float], and
    [s.index] when there is no [c], raise [ValueError] otherwise. *)
Definition float_before (c : string) (v : Value) : Outcome Qc :=
  match v with
  | VLen x u =>
      match String.index 0 c u with
      | Some k =>
          if forallb py_space (String.list_ascii_of_string (String.substring 0 k u))
          then Ok (binary64 x)
          else Raise ValueError
      | None => Raise ValueError
      end
  | _ => Raise ValueError
  end.

(** [resolve_dimensions(root)], lines 61-71; the function falls off its end
    and returns [None] when neither test holds. The product by ten is a
    float product. *)
Definition resolve_dimensions (root : Element) : Outcome (option (Qc * Qc)) :=
  width ← get_attrib "width" root;
  height ← get_attrib "height" root;
  if ends_with "mm" width && ends_with "mm" height then
    w ← float_before "m" width;
    h ← float_before "m" height;
    mret (Some (w, h))
  else if ends_with "cm" width && ends_with "cm" height then
    w ← float_before "c" width;
    h ← float_before "c" height;
    mret (Some (binary64 (w * #10), binary64 (h * #10)))
  else mret None.

(** [map(float, root.attrib['viewBox'].split(' '))] unpacked into four
    names: four numbers as [float] reads them. *)
Definition viewbox_numbers (v : Value) : Outcome (Qc * Qc * Qc * Qc) :=
  match v with
  | VNums [a; b; c; d] => Ok (binary64 a, binary64 b, binary64 c, binary64 d)
  | _ => Raise ValueError
  end.

(** [analyze_scaling(root)], lines 78-97. The two quotients are float
    quotients, and [!=] compares them as they are. *)
Definition analyze_scaling (root : Element) : Outcome (Qc * Qc * Qc) :=
  dim ← resolve_dimensions root;
  match dim with
  | None => Exit UnsupportedUnit
  | Some (width, height) =>
      '(_, _, viewbox_width, viewbox_height) ←
        get_attrib "viewBox" root ≫= viewbox_numbers;
      result ← binary64 <$> py_div width viewbox_width;
      ratio_y ← binary64 <$> py_div height viewbox_height;
      if bool_decide (ratio_y ≠ result) then Exit AnisotropicScaling
      else mret (width, height, result)
  end.

(** ** Page placement *)

Section Placement.
(** reportlab's constants: [mm], the page units in a millimetre, and [A4],
    the page width and height in page units. *)
Variable mm : Qc.
Variable A4 : Qc * Qc.

(** [decide_svg_xy(width, height, padding, position)], lines 112-138; no
    test holds for another position and the function returns [None]. *)
Definition decide_svg_xy (width height padding : Qc) (position : string)
    : option (Qc * Qc) :=
  if bool_decide (position = "TL") then
    Some (padding * mm, padding * mm)
  else if bool_decide (position = "TC") then
    Some (A4.1 / 2 - width * mm / 2, padding * mm)
  else if bool_decide (position = "TR") then
    Some (A4.1 - width * mm - padding * mm, padding * mm)
  else if bool_decide (position = "CL") then
    Some (padding * mm, A4.2 / 2 - height * mm / 2)
  else if bool_decide (position = "CC") then
    Some (A4.1 / 2 - width * mm / 2, A4.2 / 2 - height * mm / 2)
  else if bool_decide (position = "CR") then
    Some (A4.1 - width * mm - padding * mm, A4.2 / 2 - height * mm / 2)
  else if bool_decide (position = "BL") then
    Some (padding * mm, A4.2 - height * mm - padding * mm)
  else if bool_decide (position = "BC") then
    Some (A4.1 / 2 - width * mm / 2, A4.2 - height * mm - padding * mm)
  else if bool_decide (position = "BR") then
    Some (A4.1 - width * mm - padding * mm, A4.2 - height * mm - padding * mm)
  else None.
End Placement.

(** ** Entry point *)

(** The parsed arguments [main] reads from. *)
Record Args := mkArgs {
  rect_width : Z;        (* -rw, int, default 5 *)
  rect_distance : Qc;    (* -rd, float, default 1.5 *)
  rect_color : string;   (* -rc, default #000000 *)
  page_padding : Qc;     (* -pp, default 10 *)
  position : string      (* -pos, default TL *)
}.

Definition of_int (z : Z) : Qc := Q2Qc (inject_Z z).

(** Lines 273-274: no rectangle, no padding. *)
Definition rect_padding_mm (args : Args) : Qc :=
  if bool_decide (rect_width args = 0%Z) then 0 else rect_distance args.

(** Lines 280-282: [for elem in root.iter(): elem.tag = normalize_tag(elem.tag)],
    the root and every descendant. *)
Fixpoint normalize_tree (e : Element) : Outcome Element :=
  match e with
  | mkElement t a cs =>
      t' ← normalize_tag t;
      cs' ← (fix each (l : list Element) : Outcome (list Element) :=
               match l with
               | [] => Ok []
               | c :: l' =>
                   c' ← normalize_tree c;
                   l'' ← each l';
                   mret (c' :: l'')
               end) cs;
      mret (mkElement t' a cs')
  end.

(** Lines 285-288: the first pass over the children of the root, which
    merges the bounds of every top-level [g]; the other children are passed
    over. The list of the root is not resized by this loop. *)
Fixpoint measure_pass {printer : Printer} (cs : list Element) (global_bounds : Bounds)
    : Outcome (list Element * Bounds) :=
  match cs with
  | [] => Ok ([], global_bounds)
  | child :: rest =>
      if bool_decide (tag child = "g") then
        '(child', group_bounds) ← walk_group child true 0 0;
        global_bounds' ← merge_bounds global_bounds group_bounds;
        '(rest', out) ← measure_pass rest global_bounds';
        mret (child' :: rest', out)
      else
        '(rest', out) ← measure_pass rest global_bounds;
        mret (child :: rest', out)
  end.

(** Lines 297-301: the second pass, which moves every top-level [g]. *)
Fixpoint transform_pass {printer : Printer} (cs : list Element) (x_off y_off : Qc)
    : Outcome (list Element) :=
  match cs with
  | [] => Ok []
  | child :: rest =>
      if bool_decide (tag child ≠ "g") then
        rest' ← transform_pass rest x_off y_off;
        mret (child :: rest')
      else
        '(child', _) ← walk_group child false x_off y_off;
        rest' ← transform_pass rest x_off y_off;
        mret (child' :: rest')
  end.

(** Lines 293-294: the offsets. [-None] is a [TypeError]. *)
Definition offsets (global_bounds : Bounds) (rect_width_mm rect_padding_mm mm_per_uu : Qc)
    : Outcome (Qc * Qc) :=
  min_x ← not_none (b0 global_bounds);
  per_mm ← py_div 1 mm_per_uu;
  let x_off := - min_x + per_mm * (rect_width_mm + rect_padding_mm) in
  min_y ← not_none (b1 global_bounds);
  per_mm ← py_div 1 mm_per_uu;
  let y_off := - min_y + per_mm * (rect_width_mm + rect_padding_mm) in
  mret (x_off, y_off).

(** Lines 304-308: the size of the content and its frame in user units. *)
Definition canvas_size (global_bounds : Bounds) (rect_width_mm rect_padding_mm mm_per_uu : Qc)
    : Outcome (Qc * Qc) :=
  max_x ← not_none (b2 global_bounds);
  min_x ← not_none (b0 global_bounds);
  let uuwidth := max_x - min_x in
  max_y ← not_none (b3 global_bounds);
  min_y ← not_none (b1 global_bounds);
  let uuheight := max_y - min_y in
  per_mm ← py_div 1 mm_per_uu;
  let uuwidth := uuwidth + per_mm * (rect_padding_mm * 2 + rect_width_mm * 2) in
  per_mm ← py_div 1 mm_per_uu;
  let uuheight := uuheight + per_mm * (rect_padding_mm * 2 + rect_width_mm * 2) in
  mret (uuwidth, uuheight).

(** Lines 319-328: the [rect] element. *)
Definition rect_element (rect_width_uu uuwidth uuheight : Qc) (rect_color : string)
    : Element :=
  mkElement "rect"
    (<["x" := VNum (rect_width_uu / 2)]>
     (<["y" := VNum (rect_width_uu / 2)]>
     (<["width" := VNum (uuwidth - rect_width_uu)]>
     (<["height" := VNum (uuheight - rect_width_uu)]>
     (<["stroke" := VText rect_color]>
     (<["stroke-width" := VNum rect_width_uu]>
     (<["fill" := VText "none"]> ∅)))))))
    [].

(** [main], lines 272-333: from the parsed arguments and the parsed tree to
    the tree that is written out, with the new size in millimetres. The
    checks of the input path, the files and the page are not modelled. *)
Definition main {printer : Printer} (args : Args) (root : Element)
    : Outcome (Element * Qc * Qc) :=
  let rect_width_mm := of_int (rect_width args) in
  let rect_padding_mm := rect_padding_mm args in
  root ← normalize_tree root;
  '(cs, global_bounds) ← measure_pass (children root) unset_bounds;
  let root := set_children root cs in
  '(_, _, mm_per_uu) ← analyze_scaling root;
  '(x_off, y_off) ← offsets global_bounds rect_width_mm rect_padding_mm mm_per_uu;
  cs ← transform_pass (children root) x_off y_off;
  let root := set_children root cs in
  '(uuwidth, uuheight) ← canvas_size global_bounds rect_width_mm rect_padding_mm mm_per_uu;
  let mmwidth := mm_per_uu * uuwidth in
  let mmheight := mm_per_uu * uuheight in
  let root := set_attrib "width" (VLen mmwidth "mm") root in
  let root := set_attrib "height" (VLen mmheight "mm") root in
  let root := set_attrib "viewBox" (VNums [0; 0; uuwidth; uuheight]) root in
  per_mm ← py_div 1 mm_per_uu;
  let rect_width_uu := rect_width_mm * per_mm in
  let rect_elem := rect_element rect_width_uu uuwidth uuheight (rect_color args) in
  let rect_container := mkElement "g" ∅ [rect_elem] in
  mret (set_children root (children root ++ [rect_container]), mmwidth, mmheight).

(** ** The merge as the specification words it *)

(** "Must independently test min-X, min-Y, max-X, max-Y": every slot is
    gated by its own presence in the source. This definition follows the
    specification, not the source; it is what [merge_bounds] is compared
    with. *)
Definition merge_bounds_per_slot (dest src : Bounds) : Outcome Bounds :=
  d0 ← merge_slot Qc_ltb (b0 src) (b0 dest) (b0 src);
  d1 ← merge_slot Qc_ltb (b1 src) (b1 dest) (b1 src);
  d2 ← merge_slot Qc_gtb (b2 src) (b2 dest) (b2 src);
  d3 ← merge_slot Qc_gtb (b3 src) (b3 dest) (b3 src);
  mret (mkBounds d0 d1 d2 d3).

(** What one slot holds after a merge gated by its own source value. *)
Definition join_slot (lt : Qc → Qc → bool) (d s : option Qc) : option Qc :=
  match s, d with
  | None, _ => d
  | Some _, None => s
  | Some sv, Some dv => if lt sv dv then s else d
  end.

(** The boxes the walker builds: all four slots unset, or all four set. *)
Definition all_or_none (b : Bounds) : bool :=
  match b with
  | mkBounds None None None None => true
  | mkBounds (Some _) (Some _) (Some _) (Some _) => true
  | _ => false
  end.

(** The boxes the program passes to [merge_bounds] as its source, lines
    209, 217 and 288: what [walk_group] and what [handle_path] return in
    bounds mode. *)
Definition built_box {printer : Printer} (B : Bounds) : Prop :=
  (∃ g x y g1, walk_group g true x y = Ok (g1, B))
  ∨ (∃ e x y e1, handle_path e true x y = Ok (e1, Some B)).

(** A box moved by an offset; [None] stays [None]. *)
Definition shift_bounds (dx dy : Qc) (b : Bounds) : Bounds :=
  mkBounds ((λ v, v + dx) <$> b0 b) ((λ v, v + dy) <$> b1 b)
           ((λ v, v + dx) <$> b2 b) ((λ v, v + dy) <$> b3 b).

(** "Folds updateBounds over every command's start and end point": the
    box of a path as the specification words it. *)
Definition fold_endpoints (cs : list Command) : Bounds :=
  foldl (λ b c, update_bounds (update_bounds b (cmd_start c)) (cmd_end c))
        unset_bounds cs.

(** "For each axis, left/top aligns to padding; center aligns to
    pageExtent/2 - contentExtent/2; right/bottom aligns to
    pageExtent - contentExtent - padding": the placement as the
    specification words it. *)
Inductive Align := Low | Centre | High.

Definition place_axis (a : Align) (pageExtent contentExtent padding : Qc) : Qc :=
  match a with
  | Low => padding
  | Centre => pageExtent / 2 - contentExtent / 2
  | High => pageExtent - contentExtent - padding
  end.

(** The nine anchors, [positions] of [main]: the first letter is the row
    (top, centre, bottom), the second the column (left, centre, right). The
    pair is (column, row). *)
Definition anchors : list (string * (Align * Align)) :=
  [("TL", (Low, Low)); ("TC", (Centre, Low)); ("TR", (High, Low));
   ("CL", (Low, Centre)); ("CC", (Centre, Centre)); ("CR", (High, Centre));
   ("BL", (Low, High)); ("BC", (Centre, High)); ("BR", (High, High))].

(** Two ratios that differ by at most [eps]. *)
Definition within (eps x y : Qc) : Prop := x - y ≤ eps ∧ y - x ≤ eps.

(** The round trip of the two passes, as [main] chains them on one tree:
    measure, move by the offset, measure again. It returns the first and
    the second box. *)
Definition measure_transform_measure {printer : Printer} (g : Element) (dx dy : Qc)
    : Outcome (Bounds * Bounds) :=
  '(g1, before) ← walk_group g true 0 0;
  '(g2, _) ← walk_group g1 false dx dy;
  '(_, after) ← walk_group g2 true 0 0;
  mret (before, after).

(** The same on a tree as it is given: the box of the tree, and the box
    after moving that tree. *)
Definition transform_then_measure {printer : Printer} (g : Element) (dx dy : Qc)
    : Outcome Bounds :=
  '(g2, _) ← walk_group g false dx dy;
  snd <$> walk_group g2 true 0 0.

(** No element of the tree has a tag of the strip set. *)
Fixpoint strip_free (e : Element) : bool :=
  match e with
  | mkElement t _ cs =>
      negb (bool_decide (t ∈ strip_tags)) && forallb strip_free cs
  end.

(** An element the walker has no branch for. *)
Definition unknown_tag (t : string) : Prop :=
  (t ∉ ignore_tags) ∧ (t ∉ strip_tags) ∧ t ≠ "g" ∧ t ≠ "path" ∧ t ≠ "circle".

(** ** Concrete inputs *)

Definition pt (x y : Q) : complex := Complex #x #y.

(** A root with millimetre sizes and a [viewBox] at the origin. *)
Definition svg_root (w h vw vh : Qc) (cs : list Element) : Element :=
  mkElement "svg"
    (<["width" := VLen w "mm"]>
     (<["height" := VLen h "mm"]>
     (<["viewBox" := VNums [0; 0; vw; vh]]> ∅)))
    cs.

(** [M0,0 L10,0 L10,10 Z] *)
Definition square_corner : list Command :=
  [Move (pt 0 0) (pt 0 0); Line (pt 0 0) (pt 10 0);
   Line (pt 10 0) (pt 10 10); Close (pt 10 10) (pt 0 0)].

Definition path_of (cs : list Command) : Element :=
  mkElement "path" {[ "d" := VPath cs ]} [].

Definition circle_at (cx cy : Q) (r : Value) : Element :=
  mkElement "circle" {[ "cx" := VNum #cx; "cy" := VNum #cy; "r" := r ]} [].

Definition group_of (cs : list Element) : Element := mkElement "g" ∅ cs.

Definition text_node : Element := mkElement "text" ∅ [].

Definition title_node : Element := mkElement "title" ∅ [].

(** The tags of a parsed file carry the namespace in braces. *)
Definition ns (t : string) : string := "{http://www.w3.org/2000/svg}" +:+ t.

Definition default_args : Args := mkArgs 5 #1.5 "#000000" #10 "TL".

(** A file whose only group holds a title and then an unknown element. *)
Definition doc_unknown_in_group : Element :=
  mkElement (ns "svg") ∅
    [mkElement (ns "metadata") ∅ [];
     mkElement (ns "g") ∅
       [mkElement (ns "title") ∅ []; mkElement (ns "bogus") ∅ []]].

(** A file with a circle in a group and an unknown element next to the
    group, under the root. *)
Definition doc_unknown_top_level : Element :=
  mkElement (ns "svg")
    {[ "width" := VLen #100 "mm"; "height" := VLen #100 "mm";
       "viewBox" := VNums [0; 0; #100; #100] ]}
    [mkElement (ns "g") ∅
       [mkElement (ns "circle") {[ "cx" := VNum #7; "cy" := VNum #3 ]} []];
     mkElement (ns "bogus") ∅ []].

(** A file of 200 mm by 100 mm at one millimetre per user unit, whose
    content is one path with the box [(0, 0, 100, 50)]. *)
Definition doc_layout_example : Element :=
  mkElement (ns "svg")
    {[ "width" := VLen #200 "mm"; "height" := VLen #100 "mm";
       "viewBox" := VNums [0; 0; #200; #100] ]}
    [mkElement (ns "g") ∅
       [mkElement (ns "path")
          {[ "d" := VPath [Move (pt 0 0) (pt 0 0); Line (pt 0 0) (pt 100 50)] ]}
          []]].

(** A group of a text element followed by the diagonal of a square. *)
Definition diagonal : Element :=
  path_of [Move (pt 0 0) (pt 0 0); Line (pt 0 0) (pt 10 10)].

Definition text_then_path : Element := group_of [text_node; diagonal].

(** ** Notions for the further properties *)

(** The slot [b] reaches at least as far down as the slot [a]: a minimum
    that is set in [a] is set in [b], and not larger there. *)
Definition min_covers (a b : option Qc) : Prop :=
  match a, b with
  | None, _ => True
  | Some av, Some bv => bv ≤ av
  | Some _, None => False
  end.

(** The same for a maximum: set in [b], and not smaller there. *)
Definition max_covers (a b : option Qc) : Prop :=
  match a, b with
  | None, _ => True
  | Some av, Some bv => av ≤ bv
  | Some _, None => False
  end.

(** The box [a] lies in the box [b], slot by slot. *)
Definition box_within (a b : Bounds) : Prop :=
  min_covers (b0 a) (b0 b) ∧ min_covers (b1 a) (b1 b)
  ∧ max_covers (b2 a) (b2 b) ∧ max_covers (b3 a) (b3 b).

(** The point lies in the box, whose four slots are set. *)
Definition in_box (p : complex) (b : Bounds) : Prop :=
  match b with
  | mkBounds (Some x0) (Some y0) (Some x1) (Some y1) =>
      (x0 ≤ real p ∧ real p ≤ x1) ∧ (y0 ≤ imag p ∧ imag p ≤ y1)
  | _ => False
  end.

(** A box that is unset, or set with [MinX <= MaxX] and [MinY <= MaxY]. *)
Definition ordered_box (b : Bounds) : Prop :=
  match b with
  | mkBounds None None None None => True
  | mkBounds (Some x0) (Some y0) (Some x1) (Some y1) => x0 ≤ x1 ∧ y0 ≤ y1
  | _ => False
  end.

(** The four slots are set. *)
Definition full_box (b : Bounds) : bool :=
  match b with
  | mkBounds (Some _) (Some _) (Some _) (Some _) => true
  | _ => false
  end.

(** How a call ended, without what it returned. *)
Definition how_ended {A} (m : Outcome A) : Outcome unit := (λ _, ()) <$> m.

(** A call that stopped in the printing of a path: on the exception that
    [Path.d()] raises on some commands. *)
Definition stopped_in_printing {printer : Printer} {A} (m : Outcome A) : Prop :=
  ∃ path e, path_d path = inl e ∧ m = Raise e.

(** The endings of a call in bounds mode and of the same call in transform
    mode: alike, unless the transform mode stopped in the printing of a
    path, which the bounds mode does not reach. *)
Definition modes_end_alike {printer : Printer} {A B}
    (measure : Outcome A) (transform : Outcome B) : Prop :=
  how_ended measure = how_ended transform ∨ stopped_in_printing transform.

(** A point moved by an offset. *)
Definition move_point (dx dy : Qc) (p : complex) : complex :=
  Complex (real p + dx) (imag p + dy).

(** A command without its start and its end: its kind and everything else
    it carries. *)
Definition cmd_shape (c : Command) : Command :=
  set_start_end c (Complex 0 0) (Complex 0 0).

(** The loop of [normalize_tree] over the children of an element. *)
Fixpoint normalize_children (l : list Element) : Outcome (list Element) :=
  match l with
  | [] => Ok []
  | c :: l' =>
      c' ← normalize_tree c;
      l'' ← normalize_children l';
      mret (c' :: l'')
  end.

(** Every tag of the tree holds a closing brace. *)
Fixpoint tags_braced (e : Element) : bool :=
  match e with
  | mkElement t _ cs =>
      bool_decide (is_Some (rindex "}"%char t)) && forallb tags_braced cs
  end.

(** ** The end of [main]: rotation and position on the page *)

(** The values of [-pos] that reach the body of [main]: [positions], lines
    240-244, are the [choices] of the argument, and with another value
    [parse_args] ends the run before anything is read. *)
Inductive Position := TL | TC | TR | CL | CC | CR | BL | BC | BR.

#[global] Instance Position_eq_dec : EqDecision Position.
Proof. solve_decision. Defined.

Definition position_name (p : Position) : string :=
  match p with
  | TL => "TL" | TC => "TC" | TR => "TR"
  | CL => "CL" | CC => "CC" | CR => "CR"
  | BL => "BL" | BC => "BC" | BR => "BR"
  end.

Section PagePosition.
(** reportlab's [mm] and [A4], as for [decide_svg_xy]. *)
Variable mm : Qc.
Variable A4 : Qc * Qc.

(** Lines 345-364 of [main]. [rendered_width] and [rendered_height] are
    [svg_rlg.width] and [svg_rlg.height], the size the renderer gives the
    drawing; the result is the rotation flag and the two coordinates passed
    to [renderPDF.draw]. The rotation of the drawing itself and the page
    are the renderer's. [xy_pos[0]] is the indexing of what [decide_svg_xy]
    returned. *)
Definition place_on_page (rendered_width rendered_height mmwidth mmheight
    page_padding_mm : Qc) (position : Position) : Outcome (bool * Qc * Qc) :=
  let do_rotate := bool_decide (rendered_width < rendered_height) in
  let mmheight' := if do_rotate then mmwidth else mmheight in
  let mmwidth' := if do_rotate then mmheight else mmwidth in
  xy_pos ← not_none (decide_svg_xy mm A4 mmwidth' mmheight' page_padding_mm
                       (position_name position));
  mret (do_rotate, xy_pos.1, A4.2 - xy_pos.2 - mmheight' * mm - #3 * mm).
End PagePosition.

(** ** The printing keeps the moved paths *)

(** The commands of a path moved by an offset. *)
Definition moved (dx dy : Qc) (cs : list Command) : list Command :=
  map (λ c, manip_start_end c dx dy) cs.

(** Every path of the tree, once moved by the offset, is read back from
    its printing as it is: its numbers need no more than the digits that
    are printed. *)
Fixpoint printed_as_moved {printer : Printer} (dx dy : Qc) (e : Element) : bool :=
  match e with
  | mkElement t a cs =>
      (if bool_decide (t = "path") then
         match a !! "d" with
         | Some (VPath p) =>
             bool_decide (path_d (moved dx dy p) = inr (moved dx dy p))
         | _ => true
         end
       else true)
      && forallb (printed_as_moved dx dy) cs
  end.

(** * Properties *)

(** Closed goals on concrete inputs are decided by evaluation. *)
Ltac by_evaluation := apply (bool_decide_eq_true_1 _); vm_compute; reflexivity.

(** A run in which one path is printed, for a printing that is known on
    that path by [Hp]: the run is evaluated up to the printing, the path
    that is printed is found equal to the path of [Hp] by evaluation, and
    so is what remains. *)
Ltac printed_by_evaluation Hp :=
  vm_compute;
  match type of Hp with
  | _ = ?result =>
      match goal with
      | |- context [match ?P ?L with inl _ => _ | inr _ => _ end] =>
          let E := fresh in
          assert (E : P L = result)
            by (rewrite <- Hp; unfold path_d; f_equal; by_evaluation);
          rewrite E
      end
  end;
  repeat match goal with
         | |- Ok _ = Ok _ => f_equal
         | |- Some _ = Some _ => f_equal
         | |- (_, _) = (_, _) => f_equal
         | |- VPath _ = VPath _ => f_equal
         end;
  first [reflexivity | by_evaluation].

(** Order facts between variables of [Qc] are sent to the rationals under
    them; an equation of [Qc] follows from the two inequalities. *)
Ltac qc_order :=
  unfold Qclt, Qcle in *;
  first [ lra | exfalso; lra | apply Qc_is_canon; lra ].

(** ** Facts on bounds *)



(** A source whose first slot is unset leaves the destination as it is,
    whatever its other slots hold. *)
Lemma merge_bounds_gate_closed dest s1 s2 s3 :
  merge_bounds dest (mkBounds None s1 s2 s3) = Ok dest.
Proof. by destruct dest. Qed.

Lemma merge_slot_own lt d s : merge_slot lt s d s = Ok (join_slot lt d s).
Proof. by destruct s, d. Qed.

Lemma merge_bounds_per_slot_total dest src :
  merge_bounds_per_slot dest src =
  Ok (mkBounds (join_slot Qc_ltb (b0 dest) (b0 src))
               (join_slot Qc_ltb (b1 dest) (b1 src))
               (join_slot Qc_gtb (b2 dest) (b2 src))
               (join_slot Qc_gtb (b3 dest) (b3 src))).
Proof. unfold merge_bounds_per_slot. by rewrite !merge_slot_own. Qed.

Lemma join_slot_ltb_comm d s : join_slot Qc_ltb d s = join_slot Qc_ltb s d.
Proof.
  destruct d as [dv|], s as [sv|]; simpl; try done.
  unfold Qc_ltb. repeat case_bool_decide; try done; try qc_order.
  f_equal. qc_order.
Qed.

Lemma join_slot_gtb_comm d s : join_slot Qc_gtb d s = join_slot Qc_gtb s d.
Proof.
  destruct d as [dv|], s as [sv|]; simpl; try done.
  unfold Qc_gtb. repeat case_bool_decide; try done; try qc_order.
  f_equal. qc_order.
Qed.

Lemma join_slot_ltb_assoc a b c :
  join_slot Qc_ltb (join_slot Qc_ltb a b) c
  = join_slot Qc_ltb a (join_slot Qc_ltb b c).
Proof.
  destruct a as [av|], b as [bv|], c as [cv|]; simpl; try done;
    unfold Qc_ltb; repeat (case_bool_decide; simpl); try done; qc_order.
Qed.

Lemma join_slot_gtb_assoc a b c :
  join_slot Qc_gtb (join_slot Qc_gtb a b) c
  = join_slot Qc_gtb a (join_slot Qc_gtb b c).
Proof.
  destruct a as [av|], b as [bv|], c as [cv|]; simpl; try done;
    unfold Qc_gtb; repeat (case_bool_decide; simpl); try done; qc_order.
Qed.

(** The merge the specification words is commutative and associative on
    all boxes. *)
Lemma merge_bounds_per_slot_comm a b :
  merge_bounds_per_slot a b = merge_bounds_per_slot b a.
Proof.
  rewrite !merge_bounds_per_slot_total. f_equal. f_equal;
    auto using join_slot_ltb_comm, join_slot_gtb_comm.
Qed.

Lemma merge_bounds_per_slot_assoc a b c :
  (ab ← merge_bounds_per_slot a b; merge_bounds_per_slot ab c)
  = (bc ← merge_bounds_per_slot b c; merge_bounds_per_slot a bc).
Proof.
  rewrite !merge_bounds_per_slot_total. simpl.
  rewrite !merge_bounds_per_slot_total. simpl. f_equal. f_equal;
    auto using join_slot_ltb_assoc, join_slot_gtb_assoc.
Qed.

(** On the boxes the walker builds the source and the specification give
    the same merge. *)
Lemma merge_bounds_all_or_none dest src :
  all_or_none src = true →
  merge_bounds dest src = merge_bounds_per_slot dest src.
Proof. by destruct src as [[?|] [?|] [?|] [?|]]. Qed.

Lemma update_bounds_full b p :
  ∃ x0 y0 x1 y1, update_bounds b p = box x0 y0 x1 y1.
Proof.
  destruct b as [[?|] [?|] [?|] [?|]]; unfold update_bounds, update_slot; simpl;
    repeat case_match; by eexists _, _, _, _.
Qed.

Lemma update_bounds_all_or_none b p : all_or_none (update_bounds b p) = true.
Proof. by destruct (update_bounds_full b p) as (?&?&?&?&->). Qed.

Lemma merge_bounds_keeps_all_or_none dest src :
  all_or_none dest = true → all_or_none src = true →
  ∃ out, merge_bounds dest src = Ok out ∧ all_or_none out = true.
Proof.
  destruct dest as [[?|] [?|] [?|] [?|]]; try done;
    destruct src as [[?|] [?|] [?|] [?|]]; try done; intros _ _;
    eexists; (split; [reflexivity|]); simpl; by repeat case_match.
Qed.

(** A point merged as the box of that point alone is the point update. *)
Lemma merge_bounds_point dest p :
  merge_bounds dest (box (real p) (imag p) (real p) (imag p))
  = Ok (update_bounds dest p).
Proof. by destruct dest as [[?|] [?|] [?|] [?|]]. Qed.



(** On the boxes the walker builds, the merge of the source is commutative
    and associative. *)
Lemma merge_bounds_comm_all_or_none a b :
  all_or_none a = true → all_or_none b = true →
  merge_bounds a b = merge_bounds b a.
Proof.
  intros Ha Hb. rewrite !merge_bounds_all_or_none by done.
  apply merge_bounds_per_slot_comm.
Qed.

Lemma merge_bounds_assoc_all_or_none a b c :
  all_or_none a = true → all_or_none b = true → all_or_none c = true →
  (ab ← merge_bounds a b; merge_bounds ab c)
  = (bc ← merge_bounds b c; merge_bounds a bc).
Proof.
  intros Ha Hb Hc.
  destruct (merge_bounds_keeps_all_or_none b c Hb Hc) as (bc & Hbc & Hall).
  rewrite Hbc. simpl. rewrite (merge_bounds_all_or_none a bc Hall).
  rewrite (merge_bounds_all_or_none a b Hb).
  rewrite (merge_bounds_all_or_none b c Hc) in Hbc.
  pose proof (merge_bounds_per_slot_assoc a b c) as Hassoc.
  rewrite Hbc in Hassoc. simpl in Hassoc. rewrite <- Hassoc.
  destruct (merge_bounds_per_slot a b) as [ab| | |]; simpl; [|done..].
  by apply merge_bounds_all_or_none.
Qed.

(** ** [merge_bounds] *)

(** C1, the claim as stated fails. A source box whose first slot is unset
    is not merged at all: whatever its other three slots hold, the
    destination stays as it was. At the box [None, 1, 2, 3] merged into the
    unset box the claim expects [None, 1, 2, 3], as the per-slot merge of
    the specification gives, and the source leaves the unset box. *)
Theorem merge_bounds_skips_when_first_slot_unset :
  (∀ dest s1 s2 s3, merge_bounds dest (mkBounds None s1 s2 s3) = Ok dest)
  ∧ merge_bounds unset_bounds (mkBounds None (Some #1) (Some #2) (Some #3))
    = Ok unset_bounds
  ∧ merge_bounds_per_slot unset_bounds (mkBounds None (Some #1) (Some #2) (Some #3))
    = Ok (mkBounds None (Some #1) (Some #2) (Some #3)).
Proof.
  split; [apply merge_bounds_gate_closed|]. split; reflexivity.
Qed.

(** C5, the claim as stated fails. Merging a fully unset source is a no-op
    for every destination, but over all boxes the merge of the source is
    neither commutative nor associative: with [A = [None, 1, 2, 3]], merging
    [A] into the unset box leaves it unset while merging the unset box into
    [A] leaves [A]; and with [B = [None, 5, 5, 9]] between two unit boxes the
    two groupings differ. *)
Theorem merge_bounds_order_matters :
  (∀ dest, merge_bounds dest unset_bounds = Ok dest)
  ∧ (let A := mkBounds None (Some #1) (Some #2) (Some #3) in
     merge_bounds unset_bounds A = Ok unset_bounds
     ∧ merge_bounds A unset_bounds = Ok A
     ∧ merge_bounds unset_bounds A ≠ merge_bounds A unset_bounds)
  ∧ (let U := box 0 0 1 1 in
     let B := mkBounds None (Some #5) (Some #5) (Some #9) in
     (ab ← merge_bounds U B; merge_bounds ab U) = Ok U
     ∧ (bc ← merge_bounds B U; merge_bounds U bc) = Ok (box 0 0 #5 #9)
     ∧ (ab ← merge_bounds U B; merge_bounds ab U)
       ≠ (bc ← merge_bounds B U; merge_bounds U bc)).
Proof.
  split; [intros dest; apply merge_bounds_gate_closed|].
  split.
  - repeat split; try reflexivity. discriminate.
  - repeat split; by_evaluation.
Qed.

(** ** The path handler *)

Lemma path_loop_measure x_off y_off cs b :
  path_loop true x_off y_off cs b =
  if forallb supported_command cs
  then Ok (cs, foldl (λ b c, update_bounds (update_bounds b (cmd_start c)) (cmd_end c)) b cs)
  else Exit UnsupportedPathCommand.
Proof.
  revert b. induction cs as [|c cs IH]; intros b; simpl; [done|].
  destruct (supported_command c); simpl; [|done].
  rewrite IH. by destruct (forallb supported_command cs).
Qed.

Lemma fold_endpoints_by_endpoints cs :
  fold_endpoints cs =
  foldl (λ b se, update_bounds (update_bounds b se.1) se.2) unset_bounds
        (map (λ c, (cmd_start c, cmd_end c)) cs).
Proof.
  unfold fold_endpoints. generalize unset_bounds.
  induction cs as [|c cs IH]; intros b; simpl; [done|]. apply IH.
Qed.

(** C6. In bounds mode the path handler returns the fold of the bounds
    update over the start and the end of every command (or stops on a
    command it does not support); the box is a function of the start and end
    points alone, so the control points of a curve and the radius of an arc
    do not enter it; and [M0,0 L10,0 L10,10 Z] gives [(0, 0, 10, 10)]. *)
Theorem handle_path_box_of_endpoints {printer : Printer} :
  (∀ t a kids cs x_off y_off,
     let element := mkElement t (<["d" := VPath cs]> a) kids in
     handle_path element true x_off y_off =
     if forallb supported_command cs
     then Ok (element, Some (fold_endpoints cs))
     else Exit UnsupportedPathCommand)
  ∧ (∀ cs,
       fold_endpoints cs =
       foldl (λ b se, update_bounds (update_bounds b se.1) se.2) unset_bounds
             (map (λ c, (cmd_start c, cmd_end c)) cs))
  ∧ (∀ pre post s e c1 c2 c1' c2',
       fold_endpoints (pre ++ CubicBezier s c1 c2 e :: post)
       = fold_endpoints (pre ++ CubicBezier s c1' c2' e :: post))
  ∧ snd <$> handle_path (path_of square_corner) true 0 0
    = Ok (Some (box 0 0 #10 #10)).
Proof.
  split; [|split; [|split]].
  - intros t a kids cs x_off y_off element.
    unfold handle_path, get_attrib. subst element. simpl.
    rewrite lookup_insert_eq. simpl.
    rewrite path_loop_measure. by destruct (forallb supported_command cs).
  - apply fold_endpoints_by_endpoints.
  - intros. rewrite !fold_endpoints_by_endpoints, !map_app. done.
  - by_evaluation.
Qed.

(** ** The layout plan *)

(** C8. With a border of thickness zero the run is the run with the gap
    zero, whatever gap was asked for: nothing [main] returns depends on the
    gap then, and on the example document the offsets are zero, the canvas
    is the measured box and the border has no width. With thickness 5, gap
    1.5, one millimetre per user unit and the measured box
    [(0, 0, 100, 50)]: both offsets are 6.5, the canvas is 113 by 63, and
    the border rectangle has stroke width 5 and lies 2.5 inside every edge
    of the canvas. The runs of [main] are on a document with that box and
    scale, for a printing that returns on its path: they give the new
    [viewBox], the printing of the moved path and the border rectangle. *)
Theorem layout_plan_example {printer : Printer} :
  (∀ d c p pos, rect_padding_mm (mkArgs 0 d c p pos) = 0)
  ∧ (∀ d c p pos document,
       main (mkArgs 0 d c p pos) document = main (mkArgs 0 0 c p pos) document)
  ∧ (∀ printed,
       path_d [Move (pt 0 0) (pt 0 0); Line (pt 0 0) (pt 100 50)] = inr printed →
       let args := mkArgs 0 #1.5 "#000000" #10 "TL" in
       let document := doc_layout_example in
       (λ out : Element * Qc * Qc,
          let root := out.1.1 in
          (attrib root !! "viewBox",
           root.(children) !! 0%nat ≫= λ g, g.(children) !! 0%nat ≫= λ p,
             attrib p !! "d",
           root.(children) !! 1%nat ≫= λ g, g.(children) !! 0%nat ≫= λ r,
             Some (tag r, attrib r !! "x", attrib r !! "y", attrib r !! "width",
                   attrib r !! "height", attrib r !! "stroke-width")))
         <$> main args document
       = Ok (Some (VNums [0; 0; #100; #50]),
             Some (VPath printed),
             Some ("rect", Some (VNum 0), Some (VNum 0), Some (VNum #100),
                   Some (VNum #50), Some (VNum 0))))
  ∧ (let args := default_args in
     let rw := of_int (rect_width args) in
     let gap := rect_padding_mm args in
     let measured := box 0 0 #100 #50 in
     offsets measured rw gap 1 = Ok (#6.5, #6.5)
     ∧ canvas_size measured rw gap 1 = Ok (#113, #63)
     ∧ (let r := rect_element (rw * 1) #113 #63 (rect_color args) in
        attrib r !! "x" = Some (VNum #2.5)
        ∧ attrib r !! "y" = Some (VNum #2.5)
        ∧ attrib r !! "width" = Some (VNum (#113 - #2.5 - #2.5))
        ∧ attrib r !! "height" = Some (VNum (#63 - #2.5 - #2.5))
        ∧ attrib r !! "stroke-width" = Some (VNum #5)
        ∧ attrib r !! "fill" = Some (VText "none")))
  ∧ (∀ printed,
       path_d [Move (pt 6.5 6.5) (pt 6.5 6.5); Line (pt 6.5 6.5) (pt 106.5 56.5)]
       = inr printed →
       let args := default_args in
       let document := doc_layout_example in
       (λ out : Element * Qc * Qc,
          let root := out.1.1 in
          (attrib root !! "viewBox",
           root.(children) !! 0%nat ≫= λ g, g.(children) !! 0%nat ≫= λ p,
             attrib p !! "d",
           root.(children) !! 1%nat ≫= λ g, g.(children) !! 0%nat ≫= λ r,
             Some (tag r, attrib r !! "x", attrib r !! "y", attrib r !! "width",
                   attrib r !! "height", attrib r !! "stroke-width")))
         <$> main args document
       = Ok (Some (VNums [0; 0; #113; #63]),
             Some (VPath printed),
             Some ("rect", Some (VNum #2.5), Some (VNum #2.5), Some (VNum #108),
                   Some (VNum #58), Some (VNum #5)))).
Proof.
  split; [done|]. split; [done|]. split; [|split].
  - intros printed Hp args document. printed_by_evaluation Hp.
  - repeat split; by_evaluation.
  - intros printed Hp args document. printed_by_evaluation Hp.
Qed.

(** The theorem with the printing of six digits, which keeps the two
    paths. *)
Lemma layout_plan_example_witness :
  let still := [Move (pt 0 0) (pt 0 0); Line (pt 0 0) (pt 100 50)] in
  let shifted := [Move (pt 6.5 6.5) (pt 6.5 6.5);
                  Line (pt 6.5 6.5) (pt 106.5 56.5)] in
  let view (out : Element * Qc * Qc) :=
    let root := out.1.1 in
    (attrib root !! "viewBox",
     root.(children) !! 0%nat ≫= λ g, g.(children) !! 0%nat ≫= λ p,
       attrib p !! "d",
     root.(children) !! 1%nat ≫= λ g, g.(children) !! 0%nat ≫= λ r,
       Some (tag r, attrib r !! "x", attrib r !! "y", attrib r !! "width",
             attrib r !! "height", attrib r !! "stroke-width")) in
  path_d still = inr still
  ∧ path_d shifted = inr shifted
  ∧ view <$> main (mkArgs 0 #1.5 "#000000" #10 "TL") doc_layout_example
    = Ok (Some (VNums [0; 0; #100; #50]),
          Some (VPath still),
          Some ("rect", Some (VNum 0), Some (VNum 0), Some (VNum #100),
                Some (VNum #50), Some (VNum 0)))
  ∧ view <$> main default_args doc_layout_example
    = Ok (Some (VNums [0; 0; #113; #63]),
          Some (VPath shifted),
          Some ("rect", Some (VNum #2.5), Some (VNum #2.5), Some (VNum #108),
                Some (VNum #58), Some (VNum #5))).
Proof.
  intros still shifted view.
  assert (H0 : path_d still = inr still) by by_evaluation.
  assert (H1 : path_d shifted = inr shifted) by by_evaluation.
  destruct layout_plan_example as (_ & _ & Hzero & _ & Hfive).
  split; [exact H0|]. split; [exact H1|].
  split; [exact (Hzero still H0)|exact (Hfive shifted H1)].
Defined.

(** ** Page placement *)

(** C9. For each of the nine anchors the two coordinates are, per axis, the
    padding (left, top), half the page minus half the content (centre), or
    the page minus the content minus the padding (right, bottom), with the
    content size and the padding taken in page units; on a 210 by 297 page
    with padding 10 and content 50 by 30 the bottom-right anchor gives
    [(150, 257)], in millimetres whatever the page unit is. *)
Theorem decide_svg_xy_places_by_anchor :
  (∀ mm A4 width height padding pos col row,
     (pos, (col, row)) ∈ anchors →
     decide_svg_xy mm A4 width height padding pos
     = Some (place_axis col A4.1 (width * mm) (padding * mm),
             place_axis row A4.2 (height * mm) (padding * mm)))
  ∧ decide_svg_xy 1 (#210, #297) #50 #30 #10 "BR" = Some (#150, #257)
  ∧ (∀ mm, decide_svg_xy mm (#210 * mm, #297 * mm) #50 #30 #10 "BR"
           = Some (#150 * mm, #257 * mm)).
Proof.
  split; [|split].
  - intros mm A4 width height padding pos col row Hin.
    unfold anchors in Hin.
    repeat (apply elem_of_cons in Hin as [Hin|Hin];
            [injection Hin as -> -> ->; reflexivity|]).
    by apply elem_of_nil in Hin.
  - by_evaluation.
  - intros mm. unfold decide_svg_xy. simpl.
    assert (Ex : #150 = #210 - #50 - #10) by by_evaluation.
    assert (Ey : #257 = #297 - #30 - #10) by by_evaluation.
    rewrite Ex, Ey. f_equal. f_equal; ring.
Qed.

(** The placement theorem at the bottom-right anchor of the example. *)
Lemma decide_svg_xy_places_by_anchor_witness :
  ("BR", (High, High)) ∈ anchors
  ∧ decide_svg_xy 1 (#210, #297) #50 #30 #10 "BR"
    = Some (place_axis High #210 (#50 * 1) (#10 * 1),
            place_axis High #297 (#30 * 1) (#10 * 1)).
Proof.
  split.
  - unfold anchors. do 8 apply list_elem_of_further. apply list_elem_of_here.
  - apply (proj1 decide_svg_xy_places_by_anchor 1 (#210, #297) #50 #30 #10 "BR" High High).
    unfold anchors. do 8 apply list_elem_of_further. apply list_elem_of_here.
Defined.

(** ** Scaling analysis *)

Lemma py_div_nonzero x y : y ≠ 0 → py_div x y = Ok (x / y).
Proof. intros H. unfold py_div. by rewrite bool_decide_eq_false_2. Qed.

Lemma binary64_zero : binary64 0 = 0.
Proof. reflexivity. Qed.

Lemma analyze_scaling_svg_root w h vw vh cs :
  analyze_scaling (svg_root w h vw vh cs) =
  (result ← binary64 <$> py_div (binary64 w) (binary64 vw);
   ratio_y ← binary64 <$> py_div (binary64 h) (binary64 vh);
   if bool_decide (ratio_y ≠ result) then Exit AnisotropicScaling
   else mret (binary64 w, binary64 h, result)).
Proof. reflexivity. Qed.

(** C3, as the source has it. For a document whose sizes resolve to
    millimetres and whose [viewBox] has a width and a height that are not
    zero, the analysis stops with the unequal-scaling message exactly when
    the two quotients, as floats, are not equal, with no tolerance; equal
    quotients give the X quotient as the scale. [w] and [h] are the sizes
    as [resolve_dimensions] returns them, [vw] and [vh] the numbers of the
    [viewBox] as they are written. *)
Theorem analyze_scaling_fails_iff_ratios_differ root w h a b vw vh :
  resolve_dimensions root = Ok (Some (w, h)) →
  attrib root !! "viewBox" = Some (VNums [a; b; vw; vh]) →
  binary64 vw ≠ 0 → binary64 vh ≠ 0 →
  (analyze_scaling root = Exit AnisotropicScaling
   ↔ binary64 (w / binary64 vw) ≠ binary64 (h / binary64 vh))
  ∧ (binary64 (w / binary64 vw) = binary64 (h / binary64 vh) →
     analyze_scaling root = Ok (w, h, binary64 (w / binary64 vw))).
Proof.
  intros Hdim Hvb Hvw Hvh. unfold analyze_scaling, get_attrib.
  rewrite Hdim, Hvb. simpl. rewrite !py_div_nonzero by done. simpl.
  case_bool_decide as Hne; split.
  - split; [intros _ E; by rewrite E in Hne | done].
  - intros E. by rewrite E in Hne.
  - split; [done | intros Hd; by destruct Hd].
  - done.
Qed.

(** The scaling theorem at a 200 mm by 100 mm document with a 200 by 100
    [viewBox]. *)
Lemma analyze_scaling_fails_iff_ratios_differ_witness :
  let root := svg_root #200 #100 #200 #100 [] in
  resolve_dimensions root = Ok (Some (#200, #100))
  ∧ attrib root !! "viewBox" = Some (VNums [0; 0; #200; #100])
  ∧ binary64 #200 ≠ 0 ∧ binary64 #100 ≠ 0
  ∧ (analyze_scaling root = Exit AnisotropicScaling
     ↔ binary64 (#200 / binary64 #200) ≠ binary64 (#100 / binary64 #100))
  ∧ (binary64 (#200 / binary64 #200) = binary64 (#100 / binary64 #100) →
     analyze_scaling root = Ok (#200, #100, binary64 (#200 / binary64 #200))).
Proof.
  intros root.
  assert (Hdim : resolve_dimensions root = Ok (Some (#200, #100))) by by_evaluation.
  assert (Hvb : attrib root !! "viewBox" = Some (VNums [0; 0; #200; #100]))
    by reflexivity.
  assert (Hvw : binary64 #200 ≠ 0) by by_evaluation.
  assert (Hvh : binary64 #100 ≠ 0) by by_evaluation.
  split; [exact Hdim|]. split; [exact Hvb|]. split; [exact Hvw|]. split; [exact Hvh|].
  exact (analyze_scaling_fails_iff_ratios_differ root #200 #100 0 0 #200 #100
           Hdim Hvb Hvw Hvh).
Defined.

(** C3, the claim as stated fails. A document of 0.3 mm by 0.1 mm with a
    [viewBox] of 3 by 1 has the two ratios equal, one tenth each, and the
    analysis stops on it: the two float quotients are one rounding step
    apart, less than [1e-16]. So no tolerance describes the source, neither
    on the ratios themselves nor, from [1e-16] on, on the quotients as
    computed. The other way round, a document of 1 mm by
    0.3333333333333333 mm with that [viewBox] has unequal ratios and is
    accepted, the two quotients being the same float. *)
Lemma analyze_scaling_has_no_tolerance :
  (analyze_scaling (svg_root #0.3 #0.1 #3 1 []) = Exit AnisotropicScaling
   ∧ #0.3 / #3 = #0.1 / 1
   ∧ within #0.0000000000000001
       (binary64 (binary64 #0.3 / binary64 #3))
       (binary64 (binary64 #0.1 / binary64 1)))
  ∧ (∀ eps, 0 ≤ eps →
       ¬ ∀ w h vw vh cs,
           analyze_scaling (svg_root w h vw vh cs) = Exit AnisotropicScaling
           ↔ ¬ within eps (w / vw) (h / vh))
  ∧ (∀ eps, #0.0000000000000001 ≤ eps →
       ¬ ∀ w h vw vh cs,
           analyze_scaling (svg_root w h vw vh cs) = Exit AnisotropicScaling
           ↔ ¬ within eps (binary64 (binary64 w / binary64 vw))
                          (binary64 (binary64 h / binary64 vh)))
  ∧ (analyze_scaling (svg_root 1 #0.3333333333333333 #3 1 [])
     = Ok (1, binary64 #0.3333333333333333, binary64 (1 / #3))
     ∧ 1 / #3 ≠ #0.3333333333333333 / 1).
Proof.
  assert (Hstop : analyze_scaling (svg_root #0.3 #0.1 #3 1 [])
                  = Exit AnisotropicScaling) by by_evaluation.
  assert (Hnear : within #0.0000000000000001
                    (binary64 (binary64 #0.3 / binary64 #3))
                    (binary64 (binary64 #0.1 / binary64 1))).
  { split; by_evaluation. }
  assert (Hsame : #0.3 / #3 = #0.1 / 1) by by_evaluation.
  split; [exact (conj Hstop (conj Hsame Hnear))|]. split; [|split].
  - intros eps Heps Hclaim.
    apply (proj1 (Hclaim #0.3 #0.1 #3 1 []) Hstop).
    unfold within. rewrite Hsame.
    replace (#0.1 / 1 - #0.1 / 1) with (0 : Qc) by ring.
    split; exact Heps.
  - intros eps Heps Hclaim.
    apply (proj1 (Hclaim #0.3 #0.1 #3 1 []) Hstop).
    destruct Hnear as [H1 H2].
    split; eapply Qcle_trans; [exact H1|exact Heps|exact H2|exact Heps].
  - split; by_evaluation.
Qed.

(** ** The walker: one iteration and the frame of the loop *)

Lemma walk_loop_S {printer : Printer} fuel m x y i cs b :
  walk_loop (S fuel) m x y i cs b =
  match cs !! i with
  | None => Ok (cs, b)
  | Some element =>
      if bool_decide (tag element ∈ ignore_tags) then
        walk_loop fuel m x y (S i) cs b
      else if bool_decide (tag element ∈ strip_tags) then
        walk_loop fuel m x y (S i) (delete i cs) b
      else if bool_decide (tag element = "g") then
        '(element', group_bounds) ← walk_group_fuel fuel element m x y;
        bounds' ← (if m then merge_bounds b group_bounds else mret b);
        walk_loop fuel m x y (S i) (<[i := element']> cs) bounds'
      else if bool_decide (tag element = "path") then
        '(element', path_bounds) ← handle_path element m x y;
        bounds' ← (if m then
                     path_bounds ← not_none path_bounds;
                     merge_bounds b path_bounds
                   else mret b);
        walk_loop fuel m x y (S i) (<[i := element']> cs) bounds'
      else if bool_decide (tag element = "circle") then
        '(element', pos) ← handle_circle element m x y;
        bounds' ← (if m then
                     pos ← not_none pos;
                     mret (update_bounds b pos)
                   else mret b);
        walk_loop fuel m x y (S i) (<[i := element']> cs) bounds'
      else Exit (UnknownElement (tag element))
  end.
Proof. reflexivity. Qed.

Lemma walk_group_fuel_S {printer : Printer} fuel group m x y :
  walk_group_fuel (S fuel) group m x y =
  ('(cs, bounds) ← walk_loop fuel m x y 0 (children group) unset_bounds;
   mret (set_children group cs, bounds)).
Proof. reflexivity. Qed.

Lemma strip_tag_not_ignored t : t ∈ strip_tags → t ∉ ignore_tags.
Proof.
  unfold strip_tags, ignore_tags. intros Hs Hi.
  apply list_elem_of_singleton in Hs as ->.
  repeat (apply elem_of_cons in Hi as [Hi|Hi]; [done|]).
  by apply elem_of_nil in Hi.
Qed.

Lemma delete_app_r {A} (P l : list A) j :
  delete (length P + j)%nat (P ++ l) = P ++ delete j l.
Proof. induction P as [|p P IH]; simpl; [done|]. by rewrite IH. Qed.

Lemma lookup_app_add {A} (P l : list A) j : (P ++ l) !! (length P + j)%nat = l !! j.
Proof. induction P as [|p P IH]; simpl; [done|]. apply IH. Qed.

(** The iterations from an index on do not read and do not change the
    children before it. *)
Lemma walk_loop_frame {printer : Printer} fuel m x y P :
  ∀ j l b,
    walk_loop fuel m x y (length P + j)%nat (P ++ l) b
    = (λ r, (P ++ r.1, r.2)) <$> walk_loop fuel m x y j l b.
Proof.
  induction fuel as [|fuel IH]; intros j l b; [done|].
  rewrite !walk_loop_S, lookup_app_add.
  destruct (l !! j) as [element|]; [|done].
  replace (S (length P + j)) with (length P + S j)%nat by lia.
  repeat case_bool_decide.
  - apply IH.
  - rewrite delete_app_r. apply IH.
  - destruct (walk_group_fuel fuel element m x y) as [[e' gb]| | |]; try done.
    simpl. destruct (if m then merge_bounds b gb else mret b); try done.
    simpl. rewrite insert_app_r. apply IH.
  - destruct (handle_path element m x y) as [[e' pb]| | |]; try done.
    simpl.
    destruct (if m then path_bounds ← not_none pb; merge_bounds b path_bounds
              else mret b); try done.
    simpl. rewrite insert_app_r. apply IH.
  - destruct (handle_circle element m x y) as [[e' pos]| | |]; try done.
    simpl.
    destruct (if m then pos0 ← not_none pos; mret (update_bounds b pos0)
              else mret b); try done.
    simpl. rewrite insert_app_r. apply IH.
  - done.
Qed.

(** A child of the strip set under the index: it is removed, the sibling
    after it stays as it is, and the walk goes on behind that sibling. *)
Lemma walk_loop_strip_step {printer : Printer} fuel m x y pre t s post b :
  tag t ∈ strip_tags →
  walk_loop (S fuel) m x y (length pre) (pre ++ t :: s :: post) b
  = (λ r, (pre ++ s :: r.1, r.2)) <$> walk_loop fuel m x y 0 post b.
Proof.
  intros Hstrip.
  rewrite walk_loop_S, list_lookup_middle by done.
  rewrite bool_decide_eq_false_2 by by apply strip_tag_not_ignored.
  rewrite bool_decide_eq_true_2 by done.
  rewrite delete_middle.
  pose proof (walk_loop_frame fuel m x y (pre ++ [s]) 0 post b) as Hframe.
  rewrite length_app, <- app_assoc in Hframe. simpl in Hframe.
  replace (length pre + 1 + 0)%nat with (S (length pre)) in Hframe by lia.
  rewrite Hframe. destruct (walk_loop fuel m x y 0 post b) as [[l' b']| | |]; try done.
  simpl. by rewrite <- app_assoc.
Qed.

(** ** The walker returns: the weight of a group is enough fuel *)

Local Open Scope nat_scope.

Lemma bind_fueled {A B} (m : Outcome A) (f : A → Outcome B) :
  m ≠ OutOfFuel → (∀ a, f a ≠ OutOfFuel) → m ≫= f ≠ OutOfFuel.
Proof. destruct m; simpl; done. Qed.

Lemma merge_slot_fueled lt g d s : merge_slot lt g d s ≠ OutOfFuel.
Proof. by destruct g, d, s. Qed.

Lemma merge_bounds_fueled dest src : merge_bounds dest src ≠ OutOfFuel.
Proof.
  unfold merge_bounds.
  repeat (apply bind_fueled; [apply merge_slot_fueled | intros ?]). done.
Qed.

Lemma not_none_fueled {A} (o : option A) : not_none o ≠ OutOfFuel.
Proof. by destruct o. Qed.

Lemma get_attrib_fueled k e : get_attrib k e ≠ OutOfFuel.
Proof. unfold get_attrib. by destruct (attrib e !! k). Qed.

Lemma py_float_fueled v : py_float v ≠ OutOfFuel.
Proof. destruct v as [| |? u|[|? [|? ?]]|]; simpl; try done. by case_bool_decide. Qed.

Lemma path_loop_fueled m x y cs b : path_loop m x y cs b ≠ OutOfFuel.
Proof.
  revert b. induction cs as [|c cs IH]; intros b; simpl; [done|].
  destruct (supported_command c); simpl; [|done].
  destruct m; simpl; (apply bind_fueled; [apply IH | by intros [? ?]]).
Qed.

Lemma handle_path_fueled {printer : Printer} e m x y : handle_path e m x y ≠ OutOfFuel.
Proof.
  unfold handle_path.
  apply bind_fueled; [apply get_attrib_fueled | intros d].
  apply bind_fueled; [by destruct d | intros cs].
  apply bind_fueled; [apply path_loop_fueled | intros [? ?]].
  destruct m; [done|]. unfold print_path. by destruct (path_d _).
Qed.

Lemma handle_circle_fueled e m x y : handle_circle e m x y ≠ OutOfFuel.
Proof.
  unfold handle_circle. destruct m;
    repeat (apply bind_fueled;
            [apply bind_fueled; [apply get_attrib_fueled | apply py_float_fueled]
            | intros ?]); done.
Qed.

Lemma weight_ge_2 e : 2 ≤ weight e.
Proof. destruct e; simpl; lia. Qed.

Lemma weight_children g : weight g = S (S (list_sum (map weight (children g)))).
Proof. by destruct g. Qed.

Lemma drop_S_delete {A} (l : list A) i : drop (S i) (delete i l) = drop (S (S i)) l.
Proof.
  revert i. induction l as [|a l IH]; intros i; [done|].
  destruct i as [|i]; simpl; [by destruct l|]. apply (IH i).
Qed.

Lemma weight_drop_S (l : list Element) i :
  list_sum (map weight (drop (S i) l)) ≤ list_sum (map weight (drop i l)).
Proof.
  destruct (l !! i) as [e|] eqn:E.
  - rewrite (drop_S l e i E). simpl. lia.
  - apply lookup_ge_None in E. rewrite !drop_ge by lia. done.
Qed.

(** With fuel beyond the weight the walker never runs out. *)
Lemma walk_fuel_enough {printer : Printer} fuel :
  (∀ g m x y, weight g ≤ fuel → walk_group_fuel fuel g m x y ≠ OutOfFuel)
  ∧ (∀ m x y i cs b,
       list_sum (map weight (drop i cs)) < fuel →
       walk_loop fuel m x y i cs b ≠ OutOfFuel).
Proof.
  induction fuel as [|fuel [IHg IHl]].
  { split; [intros g ???; pose proof (weight_ge_2 g); lia | intros; lia]. }
  split.
  - intros g m x y Hw. rewrite walk_group_fuel_S.
    apply bind_fueled; [|by intros [? ?]].
    apply IHl. rewrite weight_children in Hw. rewrite drop_0. lia.
  - intros m x y i cs b Hw. rewrite walk_loop_S.
    destruct (cs !! i) as [element|] eqn:E; [|done].
    rewrite (drop_S cs element i E) in Hw. simpl in Hw.
    pose proof (weight_ge_2 element) as H2.
    assert (Hnext : ∀ e' b', walk_loop fuel m x y (S i) (<[i:=e']> cs) b' ≠ OutOfFuel).
    { intros e' b'. apply IHl. rewrite drop_insert_lt by lia. lia. }
    repeat case_bool_decide.
    + apply IHl. lia.
    + apply IHl. rewrite drop_S_delete.
      pose proof (weight_drop_S cs (S i)). lia.
    + apply bind_fueled; [apply IHg; lia | intros [e' gb]].
      apply bind_fueled; [|by intros ?].
      destruct m; [apply merge_bounds_fueled | done].
    + apply bind_fueled; [apply handle_path_fueled | intros [e' pb]].
      apply bind_fueled; [|by intros ?].
      destruct m; [|done].
      apply bind_fueled; [apply not_none_fueled | intros ?; apply merge_bounds_fueled].
    + apply bind_fueled; [apply handle_circle_fueled | intros [e' pos]].
      apply bind_fueled; [|by intros ?].
      destruct m; [|done].
      apply bind_fueled; [apply not_none_fueled | by intros ?].
    + done.
Qed.

Lemma bind_more_fuel {A B} (m m' : Outcome A) (f f' : A → Outcome B) :
  (m ≠ OutOfFuel → m' = m) →
  (∀ a, f a ≠ OutOfFuel → f' a = f a) →
  m ≫= f ≠ OutOfFuel → m' ≫= f' = m ≫= f.
Proof.
  intros Hm Hf H. destruct m as [a| | |]; try done; rewrite Hm by done; try done.
  simpl in *. by apply Hf.
Qed.

(** A result reached with some fuel is the result with more. *)
Lemma walk_fuel_mono {printer : Printer} fuel :
  (∀ g m x y,
     walk_group_fuel fuel g m x y ≠ OutOfFuel →
     walk_group_fuel (S fuel) g m x y = walk_group_fuel fuel g m x y)
  ∧ (∀ m x y i cs b,
       walk_loop fuel m x y i cs b ≠ OutOfFuel →
       walk_loop (S fuel) m x y i cs b = walk_loop fuel m x y i cs b).
Proof.
  induction fuel as [|fuel [IHg IHl]]; [by split|].
  split.
  - intros g m x y. rewrite !walk_group_fuel_S.
    apply bind_more_fuel; [apply IHl | done].
  - intros m x y i cs b. rewrite (walk_loop_S (S fuel)), (walk_loop_S fuel).
    destruct (cs !! i) as [element|]; [|done].
    repeat case_bool_decide; try done; try apply IHl.
    + apply bind_more_fuel; [apply IHg | intros [e' gb]].
      apply bind_more_fuel; [done | intros ?; apply IHl].
    + apply bind_more_fuel; [done | intros [e' pb]].
      apply bind_more_fuel; [done | intros ?; apply IHl].
    + apply bind_more_fuel; [done | intros [e' pos]].
      apply bind_more_fuel; [done | intros ?; apply IHl].
Qed.


(** The walker returns on every group: it ends in a result, an exit or an
    exception. *)
Lemma walk_group_returns {printer : Printer} g m x y : walk_group g m x y ≠ OutOfFuel.
Proof. by apply walk_fuel_enough. Qed.

Lemma walk_loop_stable {printer : Printer} f1 f2 m x y i cs b :
  f1 ≤ f2 →
  walk_loop f1 m x y i cs b ≠ OutOfFuel →
  walk_loop f2 m x y i cs b = walk_loop f1 m x y i cs b.
Proof.
  induction 1 as [|f2 Hle IH]; intros Hf; [done|].
  rewrite <- (IH Hf). apply walk_fuel_mono. by rewrite (IH Hf).
Qed.

Lemma walk_loop_any_fuel {printer : Printer} fuel m x y cs b :
  list_sum (map weight cs) < fuel →
  walk_loop fuel m x y 0 cs b
  = walk_loop (S (list_sum (map weight cs))) m x y 0 cs b.
Proof.
  intros Hlt. apply walk_loop_stable; [lia|].
  apply walk_fuel_enough. rewrite drop_0. lia.
Qed.

Lemma walk_group_loop {printer : Printer} g m x y :
  walk_group g m x y =
  ('(cs, bounds) ←
     walk_loop (S (list_sum (map weight (children g)))) m x y 0 (children g)
       unset_bounds;
   mret (set_children g cs, bounds)).
Proof. unfold walk_group. by rewrite weight_children, walk_group_fuel_S. Qed.

(** A group that starts with a child of the strip set: its walk is the walk
    of the group without that child and without the next one, and the next
    one is put back untouched. *)
Lemma walk_group_strip_head {printer : Printer} tg a t s post m x y :
  tag t ∈ strip_tags →
  walk_group (mkElement tg a (t :: s :: post)) m x y
  = (λ r, (mkElement tg a (s :: children r.1), r.2))
      <$> walk_group (mkElement tg a post) m x y.
Proof.
  intros Hstrip. rewrite !walk_group_loop. cbn [children].
  rewrite (walk_loop_strip_step _ m x y [] t s post unset_bounds Hstrip).
  rewrite walk_loop_any_fuel.
  - by destruct (walk_loop _ m x y 0 post unset_bounds) as [[cs b]| | |].
  - simpl. pose proof (weight_ge_2 t). lia.
Qed.

(** C10. When the loop of the walker stands on a child with a tag of the
    strip set, in either mode, the child is removed and the walk goes on
    behind the next sibling: the sibling [s] stays in the group as it is,
    and the bounds, the error and the other children are those of walking
    the rest alone, whatever [s] is. For a whole group that starts with such
    a child the walk is the walk of the group without the child and its next
    sibling. A group made of a text element and an element with an unknown
    tag is walked without error in both modes, while the unknown element
    alone stops the walk. *)
Theorem strip_removal_skips_next_sibling {printer : Printer} :
  (∀ fuel m x y pre t s post b,
     tag t ∈ strip_tags →
     walk_loop (S fuel) m x y (length pre) (pre ++ t :: s :: post) b
     = (λ r, (pre ++ s :: r.1, r.2)) <$> walk_loop fuel m x y 0 post b)
  ∧ (∀ tg a t s post m x y,
       tag t ∈ strip_tags →
       walk_group (mkElement tg a (t :: s :: post)) m x y
       = (λ r, (mkElement tg a (s :: children r.1), r.2))
           <$> walk_group (mkElement tg a post) m x y)
  ∧ (let bogus := mkElement "bogus" ∅ [] in
     walk_group (group_of [text_node; bogus]) true 0%Qc 0%Qc
     = Ok (group_of [bogus], unset_bounds)
     ∧ walk_group (group_of [text_node; bogus]) false 1%Qc 1%Qc
       = Ok (group_of [bogus], unset_bounds)
     ∧ walk_group (group_of [bogus]) true 0%Qc 0%Qc
       = Exit (UnknownElement "bogus")).
Proof.
  split; [|split].
  - intros. by apply walk_loop_strip_step.
  - intros. by apply walk_group_strip_head.
  - repeat split; reflexivity.
Qed.

(** The theorem at a text element between a circle and an unknown
    element. *)
Lemma strip_removal_skips_next_sibling_witness :
  let bogus := mkElement "bogus" ∅ [] in
  let c := circle_at 7 3 (VNum 1%Qc) in
  let c' := circle_at 1 1 (VNum 1%Qc) in
  tag text_node ∈ strip_tags
  ∧ walk_loop 3 true 0%Qc 0%Qc (length [c]) ([c] ++ text_node :: bogus :: [c'])
      (box #7 #3 #7 #3)
    = (λ r, ([c] ++ bogus :: r.1, r.2))
        <$> walk_loop 2 true 0%Qc 0%Qc 0 [c'] (box #7 #3 #7 #3)
  ∧ walk_group (mkElement "g" ∅ (text_node :: bogus :: [c'])) true 0%Qc 0%Qc
    = (λ r, (mkElement "g" ∅ (bogus :: children r.1), r.2))
        <$> walk_group (mkElement "g" ∅ [c']) true 0%Qc 0%Qc.
Proof.
  intros bogus c c'.
  assert (H : tag text_node ∈ strip_tags) by apply list_elem_of_here.
  destruct strip_removal_skips_next_sibling as (Hloop & Hgroup & _).
  split; [exact H|]. split.
  - exact (Hloop 2 true 0%Qc 0%Qc [c] text_node bogus [c'] (box #7 #3 #7 #3) H).
  - exact (Hgroup "g" ∅ text_node bogus [c'] true 0%Qc 0%Qc H).
Defined.

(** ** The circle handler *)

Local Open Scope Qc_scope.

(** C7. A circle whose [cx] and [cy] are numbers gives its centre in bounds
    mode, whatever else its attributes hold (a radius of any value, or
    none); the loop of the parent updates its bounds with that point, which
    is the merge of the box [(cx, cy, cx, cy)]. The circle at (7, 3) alone in
    a group gives the box [(7, 3, 7, 3)] for every value of [r]. *)
Theorem circle_contributes_its_centre {printer : Printer} :
  (∀ element cx cy,
     attrib element !! "cx" = Some (VNum cx) →
     attrib element !! "cy" = Some (VNum cy) →
     (∀ x y, handle_circle element true x y = Ok (element, Some (Complex cx cy)))
     ∧ (tag element = "circle" →
        ∀ fuel x y i cs b,
          cs !! i = Some element →
          walk_loop (S fuel) true x y i cs b
          = walk_loop fuel true x y (S i) cs (update_bounds b (Complex cx cy)))
     ∧ (∀ b, merge_bounds b (box cx cy cx cy) = Ok (update_bounds b (Complex cx cy)))
     ∧ update_bounds unset_bounds (Complex cx cy) = box cx cy cx cy)
  ∧ (∀ r, walk_group (group_of [circle_at 7 3 r]) true 0 0
          = Ok (group_of [circle_at 7 3 r], box #7 #3 #7 #3)).
Proof.
  split.
  - intros element cx cy Hcx Hcy.
    assert (Hc : ∀ x y, handle_circle element true x y
                        = Ok (element, Some (Complex cx cy))).
    { intros x y. unfold handle_circle, get_attrib. by rewrite Hcx, Hcy. }
    split; [exact Hc|]. split; [|split].
    + intros Htag fuel x y i cs b Hi.
      rewrite walk_loop_S, Hi, Htag, Hc. simpl.
      by rewrite list_insert_id.
    + intros b. apply (merge_bounds_point b (Complex cx cy)).
    + done.
  - intros r. vm_compute. reflexivity.
Qed.

(** The theorem at the circle of the example, with a radius that is no
    number, behind two title elements. *)
Lemma circle_contributes_its_centre_witness :
  let c := circle_at 7 3 (VText "wide") in
  attrib c !! "cx" = Some (VNum #7)
  ∧ attrib c !! "cy" = Some (VNum #3)
  ∧ tag c = "circle"
  ∧ [title_node; title_node; c] !! 2%nat = Some c
  ∧ handle_circle c true 0 0 = Ok (c, Some (Complex #7 #3))
  ∧ walk_loop 2 true 0 0 2 [title_node; title_node; c] unset_bounds
    = walk_loop 1 true 0 0 3 [title_node; title_node; c]
        (update_bounds unset_bounds (Complex #7 #3)).
Proof.
  intros c.
  assert (Hcx : attrib c !! "cx" = Some (VNum #7)) by reflexivity.
  assert (Hcy : attrib c !! "cy" = Some (VNum #3)) by reflexivity.
  assert (Ht : tag c = "circle") by reflexivity.
  assert (Hi : [title_node; title_node; c] !! 2%nat = Some c) by reflexivity.
  destruct (proj1 circle_contributes_its_centre c #7 #3 Hcx Hcy) as (Hc & Hw & _).
  split; [exact Hcx|]. split; [exact Hcy|]. split; [exact Ht|]. split; [exact Hi|].
  split; [exact (Hc 0 0)|].
  exact (Hw Ht 1%nat 0 0 2%nat [title_node; title_node; c] unset_bounds Hi).
Defined.

(** ** Unknown elements *)

Local Open Scope nat_scope.

Lemma walk_loop_unknown {printer : Printer} fuel m x y i cs b u :
  cs !! i = Some u → unknown_tag (tag u) →
  walk_loop (S fuel) m x y i cs b = Exit (UnknownElement (tag u)).
Proof.
  intros Hi (Hig & Hst & Hg & Hp & Hc).
  rewrite walk_loop_S, Hi. by rewrite !bool_decide_eq_false_2.
Qed.

Lemma walk_loop_ignored {printer : Printer} cpre :
  ∀ P rest fuel m x y b,
    Forall (λ e, tag e ∈ ignore_tags) cpre →
    walk_loop (length cpre + fuel) m x y (length P) (P ++ cpre ++ rest) b
    = walk_loop fuel m x y (length P + length cpre) (P ++ cpre ++ rest) b.
Proof.
  induction cpre as [|c cpre IH]; intros P rest fuel m x y b Hall.
  { simpl. by rewrite Nat.add_0_r. }
  apply Forall_cons in Hall as [Hc Hall]. simpl length.
  change ((c :: cpre) ++ rest) with (c :: cpre ++ rest).
  replace (S (length cpre) + fuel) with (S (length cpre + fuel)) by lia.
  rewrite walk_loop_S, list_lookup_middle by done.
  rewrite bool_decide_eq_true_2 by done.
  specialize (IH (P ++ [c]) rest fuel m x y b Hall).
  rewrite length_app, <- app_assoc in IH. simpl in IH.
  replace (length P + 1) with (S (length P)) in IH by lia.
  rewrite IH. f_equal. lia.
Qed.

Lemma weight_sum_ge_length (l : list Element) :
  length l ≤ list_sum (map weight l).
Proof.
  induction l as [|e l IH]; simpl; [done|].
  pose proof (weight_ge_2 e). lia.
Qed.

Lemma measure_pass_skips {printer : Printer} pre rest b :
  Forall (λ e, tag e ≠ "g") pre →
  measure_pass (pre ++ rest) b = (λ r, (pre ++ r.1, r.2)) <$> measure_pass rest b.
Proof.
  induction pre as [|c pre IH]; intros Hall; simpl.
  { by destruct (measure_pass rest b) as [[? ?]| | |]. }
  apply Forall_cons in Hall as [Hc Hall].
  rewrite bool_decide_eq_false_2 by done.
  rewrite IH by done. by destruct (measure_pass rest b) as [[? ?]| | |].
Qed.

(** A group whose walk in bounds mode first meets, after ignored elements
    only, an element with an unknown tag. *)
Lemma walk_group_meets_unknown {printer : Printer} g cpre u cpost m x y :
  children g = cpre ++ u :: cpost →
  Forall (λ e, tag e ∈ ignore_tags) cpre →
  unknown_tag (tag u) →
  walk_group g m x y = Exit (UnknownElement (tag u)).
Proof.
  intros Hcs Hall Hu. unfold walk_group.
  rewrite weight_children, walk_group_fuel_S, Hcs.
  pose proof (weight_sum_ge_length (cpre ++ u :: cpost)) as Hlen.
  rewrite length_app in Hlen. simpl in Hlen.
  set (n := list_sum (map weight (cpre ++ u :: cpost))) in *.
  replace (S n) with (length cpre + S (n - length cpre)) by lia.
  rewrite (walk_loop_ignored cpre [] (u :: cpost)) by done.
  rewrite (walk_loop_unknown _ _ _ _ _ _ _ u); [done| |done].
  by apply list_lookup_middle.
Qed.

(** C2, as the source has it. An element with an unknown tag stops the
    run where the loop of the walker stands on it, inside a group and in
    either mode. A stop of the first pass is the outcome of the run, which
    then returns no tree. So a document stops with the unknown-element
    message when, after top-level children that are no groups, a top-level
    group holds an element with an unknown tag after ignored elements
    only; the exit status is 1. *)
Theorem unknown_element_inside_group_stops_run {printer : Printer} :
  (∀ fuel m x y i cs b u,
     cs !! i = Some u → unknown_tag (tag u) →
     walk_loop (S fuel) m x y i cs b = Exit (UnknownElement (tag u)))
  ∧ (∀ args document root f,
       normalize_tree document = Ok root →
       measure_pass (children root) unset_bounds = Exit f →
       main args document = Exit f)
  ∧ (∀ args document root pre g post cpre u cpost,
       normalize_tree document = Ok root →
       children root = pre ++ g :: post →
       Forall (λ e, tag e ≠ "g") pre →
       tag g = "g" →
       children g = cpre ++ u :: cpost →
       Forall (λ e, tag e ∈ ignore_tags) cpre →
       unknown_tag (tag u) →
       main args document = Exit (UnknownElement (tag u))
       ∧ exit_status (UnknownElement (tag u)) = 1%Z).
Proof.
  split; [|split].
  - intros. by apply walk_loop_unknown.
  - intros args document root f Hnorm Hpass. unfold main.
    rewrite Hnorm. simpl. by rewrite Hpass.
  - intros args document root pre g post cpre u cpost
      Hnorm Hroot Hpre Hg Hcs Hcpre Hu.
    split; [|done]. unfold main. rewrite Hnorm. simpl.
    rewrite Hroot, measure_pass_skips by done. simpl.
    rewrite bool_decide_eq_true_2 by done.
    by rewrite (walk_group_meets_unknown g cpre u cpost).
Qed.

(** The theorem at a document whose group holds a title and then an
    unknown element. *)
Lemma unknown_element_inside_group_stops_run_witness :
  let root := mkElement "svg" ∅
                [mkElement "metadata" ∅ [];
                 mkElement "g" ∅ [mkElement "title" ∅ []; mkElement "bogus" ∅ []]] in
  let g := mkElement "g" ∅ [mkElement "title" ∅ []; mkElement "bogus" ∅ []] in
  let u := mkElement "bogus" ∅ [] in
  normalize_tree doc_unknown_in_group = Ok root
  ∧ children g !! 1 = Some u
  ∧ unknown_tag (tag u)
  ∧ walk_loop 1 true 0 0 1 (children g) unset_bounds = Exit (UnknownElement "bogus")
  ∧ measure_pass (children root) unset_bounds = Exit (UnknownElement "bogus")
  ∧ main default_args doc_unknown_in_group = Exit (UnknownElement "bogus")
  ∧ main default_args doc_unknown_in_group = Exit (UnknownElement (tag u))
  ∧ exit_status (UnknownElement (tag u)) = 1%Z.
Proof.
  intros root g u.
  assert (Hnorm : normalize_tree doc_unknown_in_group = Ok root) by reflexivity.
  assert (Hi : children g !! 1 = Some u) by reflexivity.
  assert (Hu : unknown_tag (tag u)).
  { unfold unknown_tag. repeat split; by_evaluation. }
  assert (Hpass : measure_pass (children root) unset_bounds
                  = Exit (UnknownElement "bogus")) by reflexivity.
  destruct unknown_element_inside_group_stops_run as (Hloop & Hrun & Hdoc).
  split; [exact Hnorm|]. split; [exact Hi|]. split; [exact Hu|].
  split; [exact (Hloop 0 true 0%Qc 0%Qc 1 (children g) unset_bounds u Hi Hu)|].
  split; [exact Hpass|].
  split; [exact (Hrun default_args doc_unknown_in_group root _ Hnorm Hpass)|].
  refine (Hdoc default_args doc_unknown_in_group root
            [mkElement "metadata" ∅ []] g [] [mkElement "title" ∅ []] u []
            Hnorm eq_refl _ eq_refl eq_refl _ Hu).
  - apply Forall_cons. split; [by_evaluation | apply Forall_nil_2].
  - apply Forall_cons. split; [by_evaluation | apply Forall_nil_2].
Defined.

(** C2, the claim as stated fails. The root of this document has a child
    with the unknown tag [bogus] next to a group; the run passes it over,
    ends without any exit and returns the tree with the border group
    appended. *)
Lemma unknown_top_level_element_is_passed_over :
  (λ root, tag <$> children root) <$> normalize_tree doc_unknown_top_level
  = Ok ["g"; "bogus"]
  ∧ unknown_tag "bogus"
  ∧ stopped (main default_args doc_unknown_top_level) = false
  ∧ (λ out : Element * Qc * Qc, tag <$> children out.1.1)
      <$> main default_args doc_unknown_top_level
    = Ok ["g"; "bogus"; "g"].
Proof.
  split; [by_evaluation|]. split; [|split].
  - unfold unknown_tag. repeat split; by_evaluation.
  - by_evaluation.
  - by_evaluation.
Qed.

(** ** The round trip of the two passes *)

Local Open Scope Qc_scope.

(** C4 (the source departs from the claim). On a group of a text element
    followed by a path from (0, 0) to (10, 10), the first pass removes the
    text element and passes the path over: it measures the unset box and
    leaves the path in the group. Moved by (1, 1) and measured again, as
    [main] chains the passes, the group has the box [(1, 1, 11, 11)], which
    is not the unset box moved. On the tree as given the second pass passes
    the path over as well and the box after it is [(0, 0, 10, 10)], again
    not the box measured first. The moved path is printed [M 1,1 L 11,11],
    within the six digits of the printing. *)
Theorem round_trip_broken_after_stripped_element :
  walk_group text_then_path true 0 0 = Ok (group_of [diagonal], unset_bounds)
  ∧ measure_transform_measure text_then_path 1 1
    = Ok (unset_bounds, box 1 1 #11 #11)
  ∧ shift_bounds 1 1 unset_bounds = unset_bounds
  ∧ snd <$> walk_group text_then_path true 0 0 = Ok unset_bounds
  ∧ transform_then_measure text_then_path 1 1 = Ok (box 0 0 #10 #10).
Proof.
  split; [reflexivity|]. repeat split; by_evaluation.
Qed.

(** ** The round trip where nothing is stripped *)

(** The loop on a list, read from its head: the iteration on the first
    child and then the loop on the rest. *)
Lemma walk_loop_next {printer : Printer} fuel m x y e rest b :
  walk_loop fuel m x y 1 (e :: rest) b
  = (λ r, (e :: r.1, r.2)) <$> walk_loop fuel m x y 0 rest b.
Proof. apply (walk_loop_frame fuel m x y [e] 0%nat rest b). Qed.

Lemma walk_loop_head {printer : Printer} fuel m x y e rest b :
  walk_loop (S fuel) m x y 0 (e :: rest) b =
  if bool_decide (tag e ∈ ignore_tags) then
    walk_loop fuel m x y 1 (e :: rest) b
  else if bool_decide (tag e ∈ strip_tags) then
    walk_loop fuel m x y 1 rest b
  else if bool_decide (tag e = "g") then
    '(e', group_bounds) ← walk_group_fuel fuel e m x y;
    bounds' ← (if m then merge_bounds b group_bounds else mret b);
    walk_loop fuel m x y 1 (e' :: rest) bounds'
  else if bool_decide (tag e = "path") then
    '(e', path_bounds) ← handle_path e m x y;
    bounds' ← (if m then
                 path_bounds ← not_none path_bounds;
                 merge_bounds b path_bounds
               else mret b);
    walk_loop fuel m x y 1 (e' :: rest) bounds'
  else if bool_decide (tag e = "circle") then
    '(e', pos) ← handle_circle e m x y;
    bounds' ← (if m then
                 pos ← not_none pos;
                 mret (update_bounds b pos)
               else mret b);
    walk_loop fuel m x y 1 (e' :: rest) bounds'
  else Exit (UnknownElement (tag e)).
Proof. reflexivity. Qed.


Lemma manip_start_end_start c dx dy :
  cmd_start (manip_start_end c dx dy)
  = Complex (real (cmd_start c) + dx) (imag (cmd_start c) + dy).
Proof. by destruct c. Qed.

Lemma manip_start_end_end c dx dy :
  cmd_end (manip_start_end c dx dy)
  = Complex (real (cmd_end c) + dx) (imag (cmd_end c) + dy).
Proof. by destruct c. Qed.

Lemma path_loop_transform dx dy cs b :
  path_loop false dx dy cs b =
  if forallb supported_command cs
  then Ok (map (λ c, manip_start_end c dx dy) cs, b)
  else Exit UnsupportedPathCommand.
Proof.
  induction cs as [|c cs IH]; simpl; [done|].
  destruct (supported_command c); simpl; [|done].
  rewrite IH. by destruct (forallb supported_command cs).
Qed.









Lemma bind_Ok_inv {A B} (m : Outcome A) (f : A → Outcome B) (y : B) :
  m ≫= f = Ok y → ∃ a, m = Ok a ∧ f a = Ok y.
Proof. destruct m as [a| | |]; try done. intros H. by exists a. Qed.

(** The tests on the tag, decided from the facts at hand. *)
Ltac decide_tags :=
  repeat match goal with
         | |- context [bool_decide ?P] =>
             first [ rewrite (bool_decide_eq_true_2 P) by done
                   | rewrite (bool_decide_eq_false_2 P) by done ]
         end.





(** ** The boxes of the walker *)

Lemma fold_endpoints_all_or_none cs b :
  all_or_none b = true →
  all_or_none
    (foldl (λ b c, update_bounds (update_bounds b (cmd_start c)) (cmd_end c)) b cs)
  = true.
Proof.
  revert b. induction cs as [|c cs IH]; intros b Hb; simpl; [done|].
  apply IH, update_bounds_all_or_none.
Qed.

Lemma handle_path_all_or_none {printer : Printer} e x y e1 B :
  handle_path e true x y = Ok (e1, Some B) → all_or_none B = true.
Proof.
  unfold handle_path, get_attrib.
  destruct (attrib e !! "d") as [[| | | |cs]|]; simpl; try done.
  rewrite path_loop_measure.
  destruct (forallb supported_command cs); simpl; [|done].
  intros [= _ <-]. by apply fold_endpoints_all_or_none.
Qed.

(** Every box the walker returns, and every box it passes to
    [merge_bounds], has its four slots set or its four slots unset; on such
    boxes the merge of the source is the per-slot merge. *)
Lemma walk_bounds_all_or_none {printer : Printer} fuel :
  (∀ g x y g1 B,
     walk_group_fuel fuel g true x y = Ok (g1, B) → all_or_none B = true)
  ∧ (∀ x y i cs b cs1 B,
       all_or_none b = true →
       walk_loop fuel true x y i cs b = Ok (cs1, B) → all_or_none B = true).
Proof.
  induction fuel as [|fuel [IHg IHl]]; [by split|].
  split.
  - intros g x y g1 B. rewrite walk_group_fuel_S.
    intros ([cs1 B'] & Hloop & [= _ <-])%bind_Ok_inv.
    by apply (IHl _ _ _ _ _ _ _ (eq_refl : all_or_none unset_bounds = true) Hloop).
  - intros x y i cs b cs1 B Hb. rewrite walk_loop_S.
    destruct (cs !! i) as [e|]; [|by intros [= _ <-]].
    repeat case_bool_decide; try done; try by apply IHl.
    + intros ([e1 gb] & Hwalk & (b' & Hmerge & Hloop)%bind_Ok_inv)%bind_Ok_inv.
      apply IHg in Hwalk.
      destruct (merge_bounds_keeps_all_or_none b gb Hb Hwalk) as (out & Hout & Hall).
      rewrite Hout in Hmerge. injection Hmerge as <-.
      by apply (IHl _ _ _ _ _ _ _ Hall Hloop).
    + intros ([e1 pb] & Hh & (b' & Hmerge & Hloop)%bind_Ok_inv)%bind_Ok_inv.
      destruct pb as [pb|]; [|done]. simpl in Hmerge.
      apply handle_path_all_or_none in Hh.
      destruct (merge_bounds_keeps_all_or_none b pb Hb Hh) as (out & Hout & Hall).
      rewrite Hout in Hmerge. injection Hmerge as <-.
      by apply (IHl _ _ _ _ _ _ _ Hall Hloop).
    + intros ([e1 pos] & Hh & (b' & Hupd & Hloop)%bind_Ok_inv)%bind_Ok_inv.
      destruct pos as [pos|]; [|done]. simpl in Hupd. injection Hupd as <-.
      by apply (IHl _ _ _ _ _ _ _ (update_bounds_all_or_none b pos) Hloop).
Qed.

(** A box the program builds has its four slots set or unset together. *)
Lemma built_box_all_or_none {printer : Printer} B :
  built_box B → all_or_none B = true.
Proof.
  intros [(g & x & y & g1 & Hw)|(e & x & y & e1 & Hp)].
  - exact (proj1 (walk_bounds_all_or_none (weight g)) g x y g1 B Hw).
  - exact (handle_path_all_or_none e x y e1 B Hp).
Qed.

(** C1, as the source has it. The one presence test of [merge_bounds], on
    the first slot of the source, stands for the four slots on every box
    the program merges: such a box has its four slots set or unset
    together, so that each slot of the destination is updated on the
    presence of that same slot in the source, as the per-slot merge of the
    specification does; and a built source whose first slot is unset is the
    unset box, which leaves the destination as it is. *)
Theorem merge_bounds_per_slot_on_built_boxes {printer : Printer} dest src :
  built_box src →
  all_or_none src = true
  ∧ merge_bounds dest src = merge_bounds_per_slot dest src
  ∧ (b0 src = None → src = unset_bounds ∧ merge_bounds dest src = Ok dest).
Proof.
  intros Hall%built_box_all_or_none.
  split; [done|]. split; [by apply merge_bounds_all_or_none|].
  intros H0. destruct src as [[?|] [?|] [?|] [?|]]; try done.
  split; [done|]. apply merge_bounds_gate_closed.
Qed.

(** The theorem at the box of a circle at (7, 3) in a group, merged into a
    unit box. *)
Lemma merge_bounds_per_slot_on_built_boxes_witness :
  let src := box #7 #3 #7 #3 in
  let dest := box 0 0 1 1 in
  built_box src
  ∧ all_or_none src = true
  ∧ merge_bounds dest src = merge_bounds_per_slot dest src
  ∧ (b0 src = None → src = unset_bounds ∧ merge_bounds dest src = Ok dest).
Proof.
  intros src dest.
  assert (Hb : built_box src).
  { left. exists (group_of [circle_at 7 3 (VNum 1)]), 0, 0,
                 (group_of [circle_at 7 3 (VNum 1)]).
    vm_compute. reflexivity. }
  split; [exact Hb|].
  exact (merge_bounds_per_slot_on_built_boxes dest src Hb).
Defined.

(** C5, as the source has it. Merging a fully unset source leaves every
    destination as it is, and over the boxes the program builds the merge
    is commutative and associative. *)
Theorem merge_bounds_commutes_on_built_boxes {printer : Printer} :
  (∀ dest, merge_bounds dest unset_bounds = Ok dest)
  ∧ (∀ a b, built_box a → built_box b → merge_bounds a b = merge_bounds b a)
  ∧ (∀ a b c, built_box a → built_box b → built_box c →
       (ab ← merge_bounds a b; merge_bounds ab c)
       = (bc ← merge_bounds b c; merge_bounds a bc)).
Proof.
  split; [intros dest; apply merge_bounds_gate_closed|]. split.
  - intros a b Ha%built_box_all_or_none Hb%built_box_all_or_none.
    by apply merge_bounds_comm_all_or_none.
  - intros a b c Ha%built_box_all_or_none Hb%built_box_all_or_none
      Hc%built_box_all_or_none.
    by apply merge_bounds_assoc_all_or_none.
Qed.

(** The theorem at the boxes of a circle in a group, of the corner of a
    square and of an empty group. *)
Lemma merge_bounds_commutes_on_built_boxes_witness :
  let a := box #7 #3 #7 #3 in
  let b := box 0 0 #10 #10 in
  let c := unset_bounds in
  built_box a ∧ built_box b ∧ built_box c
  ∧ merge_bounds a b = merge_bounds b a
  ∧ (ab ← merge_bounds a b; merge_bounds ab c)
    = (bc ← merge_bounds b c; merge_bounds a bc).
Proof.
  intros a b c.
  assert (Ha : built_box a).
  { left. exists (group_of [circle_at 7 3 (VNum 1)]), 0, 0,
                 (group_of [circle_at 7 3 (VNum 1)]).
    vm_compute. reflexivity. }
  assert (Hb : built_box b).
  { right. exists (path_of square_corner), 0, 0, (path_of square_corner).
    vm_compute. reflexivity. }
  assert (Hc : built_box c).
  { left. exists (group_of []), 0, 0, (group_of []). reflexivity. }
  destruct merge_bounds_commutes_on_built_boxes as (_ & Hcomm & Hassoc).
  split; [exact Ha|]. split; [exact Hb|]. split; [exact Hc|].
  split; [exact (Hcomm a b Ha Hb)|]. exact (Hassoc a b c Ha Hb Hc).
Defined.

(** * Further properties *)

Local Open Scope Qc_scope.

(** ** Bounds *)

Lemma Qc_ltb_false x y : Qc_ltb x y = false ↔ y ≤ x.
Proof.
  unfold Qc_ltb. rewrite bool_decide_eq_false. split.
  - apply Qcnot_lt_le.
  - intros H. by apply Qcle_not_lt.
Qed.

Lemma Qc_ltb_true x y : Qc_ltb x y = true ↔ x < y.
Proof. unfold Qc_ltb. apply bool_decide_eq_true. Qed.

Lemma update_slot_min d v :
  ∃ m, update_slot Qc_ltb d v = Some m ∧ m ≤ v ∧ min_covers d (Some m)
       ∧ (Some m = d ∨ m = v).
Proof.
  destruct d as [dv|]; simpl.
  - destruct (Qc_ltb v dv) eqn:E.
    + apply Qc_ltb_true in E. exists v.
      repeat split; [apply Qcle_refl | by apply Qclt_le_weak | by right].
    + apply Qc_ltb_false in E. exists dv.
      repeat split; [done | apply Qcle_refl | by left].
  - exists v. repeat split; [apply Qcle_refl | by right].
Qed.

Lemma update_slot_max d v :
  ∃ m, update_slot Qc_gtb d v = Some m ∧ v ≤ m ∧ max_covers d (Some m)
       ∧ (Some m = d ∨ m = v).
Proof.
  destruct d as [dv|]; simpl.
  - unfold Qc_gtb. case_bool_decide as E.
    + exists v. repeat split; [apply Qcle_refl | by apply Qclt_le_weak | by right].
    + apply Qcnot_lt_le in E. exists dv.
      repeat split; [done | apply Qcle_refl | by left].
  - exists v. repeat split; [apply Qcle_refl | by right].
Qed.

(** X1. After [update_bounds] the four slots are set, the point lies in the
    box, the box is in order, and whatever the destination covered before
    is still covered: the update only ever grows a box, and every slot it
    holds is the old slot or the coordinate of the point. *)
Theorem update_bounds_encloses dest p :
  full_box (update_bounds dest p) = true
  ∧ in_box p (update_bounds dest p)
  ∧ ordered_box (update_bounds dest p)
  ∧ box_within dest (update_bounds dest p)
  ∧ (b0 (update_bounds dest p) = b0 dest ∨ b0 (update_bounds dest p) = Some (real p))
  ∧ (b1 (update_bounds dest p) = b1 dest ∨ b1 (update_bounds dest p) = Some (imag p))
  ∧ (b2 (update_bounds dest p) = b2 dest ∨ b2 (update_bounds dest p) = Some (real p))
  ∧ (b3 (update_bounds dest p) = b3 dest ∨ b3 (update_bounds dest p) = Some (imag p)).
Proof.
  unfold update_bounds.
  destruct (update_slot_min (b0 dest) (real p)) as (x0 & -> & Hx0 & Cx0 & Ox0).
  destruct (update_slot_min (b1 dest) (imag p)) as (y0 & -> & Hy0 & Cy0 & Oy0).
  destruct (update_slot_max (b2 dest) (real p)) as (x1 & -> & Hx1 & Cx1 & Ox1).
  destruct (update_slot_max (b3 dest) (imag p)) as (y1 & -> & Hy1 & Cy1 & Oy1).
  simpl. repeat split; try done.
  - by apply Qcle_trans with (real p).
  - by apply Qcle_trans with (imag p).
  - destruct Ox0 as [<-| ->]; auto.
  - destruct Oy0 as [<-| ->]; auto.
  - destruct Ox1 as [<-| ->]; auto.
  - destruct Oy1 as [<-| ->]; auto.
Qed.

Lemma Qc_lt_irreflexive (x : Qc) : ¬ x < x.
Proof. apply Qcle_not_lt, Qcle_refl. Qed.

Lemma update_slot_join lt d v : update_slot lt d v = join_slot lt d (Some v).
Proof. by destruct d. Qed.

Lemma update_bounds_join dest p :
  update_bounds dest p =
  mkBounds (join_slot Qc_ltb (b0 dest) (Some (real p)))
           (join_slot Qc_ltb (b1 dest) (Some (imag p)))
           (join_slot Qc_gtb (b2 dest) (Some (real p)))
           (join_slot Qc_gtb (b3 dest) (Some (imag p))).
Proof. unfold update_bounds. by rewrite !update_slot_join. Qed.

(** X2. The order in which points are added to a box does not matter, and
    adding a point twice is adding it once. *)
Theorem update_bounds_order_free dest p q :
  update_bounds (update_bounds dest p) q = update_bounds (update_bounds dest q) p
  ∧ update_bounds (update_bounds dest p) p = update_bounds dest p.
Proof.
  rewrite !update_bounds_join. cbn [b0 b1 b2 b3]. split.
  - rewrite !join_slot_ltb_assoc, !join_slot_gtb_assoc.
    by rewrite (join_slot_ltb_comm (Some (real p))),
               (join_slot_ltb_comm (Some (imag p))),
               (join_slot_gtb_comm (Some (real p))),
               (join_slot_gtb_comm (Some (imag p))).
  - rewrite !join_slot_ltb_assoc, !join_slot_gtb_assoc. simpl.
    unfold Qc_ltb, Qc_gtb.
    by rewrite !bool_decide_eq_false_2 by apply Qc_lt_irreflexive.
Qed.

Lemma join_slot_min_least a b c :
  min_covers a (join_slot Qc_ltb a b) ∧ min_covers b (join_slot Qc_ltb a b)
  ∧ (min_covers a c → min_covers b c → min_covers (join_slot Qc_ltb a b) c).
Proof.
  destruct a as [av|], b as [bv|], c as [cv|]; simpl;
    try (destruct (Qc_ltb bv av) eqn:E;
         [apply Qc_ltb_true, Qclt_le_weak in E | apply Qc_ltb_false in E]);
    simpl; repeat split; try done; try apply Qcle_refl.
Qed.

Lemma join_slot_max_least a b c :
  max_covers a (join_slot Qc_gtb a b) ∧ max_covers b (join_slot Qc_gtb a b)
  ∧ (max_covers a c → max_covers b c → max_covers (join_slot Qc_gtb a b) c).
Proof.
  destruct a as [av|], b as [bv|], c as [cv|]; simpl;
    try (unfold Qc_gtb; case_bool_decide as E;
         [apply Qclt_le_weak in E | apply Qcnot_lt_le in E]);
    simpl; repeat split; try done; try apply Qcle_refl.
Qed.

Lemma merge_bounds_join a b :
  all_or_none b = true →
  merge_bounds a b =
  Ok (mkBounds (join_slot Qc_ltb (b0 a) (b0 b)) (join_slot Qc_ltb (b1 a) (b1 b))
               (join_slot Qc_gtb (b2 a) (b2 b)) (join_slot Qc_gtb (b3 a) (b3 b))).
Proof.
  intros Hb. rewrite merge_bounds_all_or_none by done.
  apply merge_bounds_per_slot_total.
Qed.

(** X3. On boxes with four set or four unset slots [merge_bounds] never
    raises and returns the least box that holds both: it covers the
    destination and the source, and every box that covers both covers it. *)
Theorem merge_bounds_is_least_cover a b :
  all_or_none a = true → all_or_none b = true →
  ∃ m, merge_bounds a b = Ok m
       ∧ all_or_none m = true
       ∧ box_within a m ∧ box_within b m
       ∧ (∀ c, box_within a c → box_within b c → box_within m c).
Proof.
  intros Ha Hb.
  destruct (merge_bounds_keeps_all_or_none a b Ha Hb) as (m & Hm & Hall).
  exists m. split; [done|]. split; [done|].
  rewrite merge_bounds_join in Hm by done. injection Hm as <-.
  unfold box_within. cbn [b0 b1 b2 b3].
  pose proof (λ c, join_slot_min_least (b0 a) (b0 b) c) as H0.
  pose proof (λ c, join_slot_min_least (b1 a) (b1 b) c) as H1.
  pose proof (λ c, join_slot_max_least (b2 a) (b2 b) c) as H2.
  pose proof (λ c, join_slot_max_least (b3 a) (b3 b) c) as H3.
  split; [|split].
  - repeat split; [apply (H0 None) | apply (H1 None) | apply (H2 None) | apply (H3 None)].
  - repeat split; [apply (H0 None) | apply (H1 None) | apply (H2 None) | apply (H3 None)].
  - intros c (A0 & A1 & A2 & A3) (B0 & B1 & B2 & B3).
    repeat split; [by apply H0 | by apply H1 | by apply H2 | by apply H3].
Qed.

(** The theorem at the boxes [(0, 0, 4, 1)] and [(2, -1, 3, 5)]. *)
Lemma merge_bounds_is_least_cover_witness :
  all_or_none (box 0 0 #4 1) = true
  ∧ all_or_none (box #2 (- 1) #3 #5) = true
  ∧ ∃ m, merge_bounds (box 0 0 #4 1) (box #2 (- 1) #3 #5) = Ok m
         ∧ all_or_none m = true
         ∧ box_within (box 0 0 #4 1) m ∧ box_within (box #2 (- 1) #3 #5) m
         ∧ (∀ c, box_within (box 0 0 #4 1) c → box_within (box #2 (- 1) #3 #5) c →
                 box_within m c).
Proof.
  split; [reflexivity|]. split; [reflexivity|].
  exact (merge_bounds_is_least_cover (box 0 0 #4 1) (box #2 (- 1) #3 #5)
           eq_refl eq_refl).
Defined.

(** X4. A source whose first slot is set while another of its slots is
    unset makes [merge_bounds] raise a [TypeError] on a destination with
    four set slots: the comparison of [None] with a number. *)
Theorem merge_bounds_partial_source_raises dest src :
  full_box dest = true →
  is_Some (b0 src) → all_or_none src = false →
  merge_bounds dest src = Raise TypeError.
Proof.
  destruct dest as [[d0|] [d1|] [d2|] [d3|]]; try done. intros _.
  destruct src as [[s0|] [s1|] [s2|] [s3|]]; intros [? Hs] Hp; try done.
Qed.

(** The theorem at the source [[0, None, 1, 1]]. *)
Lemma merge_bounds_partial_source_raises_witness :
  full_box (box 0 0 1 1) = true
  ∧ is_Some (b0 (mkBounds (Some 0) None (Some 1) (Some 1)))
  ∧ all_or_none (mkBounds (Some 0) None (Some 1) (Some 1)) = false
  ∧ merge_bounds (box 0 0 1 1) (mkBounds (Some 0) None (Some 1) (Some 1))
    = Raise TypeError.
Proof.
  assert (Hs : is_Some (b0 (mkBounds (Some 0) None (Some 1) (Some 1))))
    by (by eexists).
  split; [reflexivity|]. split; [exact Hs|]. split; [reflexivity|].
  exact (merge_bounds_partial_source_raises (box 0 0 1 1)
           (mkBounds (Some 0) None (Some 1) (Some 1)) eq_refl Hs eq_refl).
Defined.

(** X5. On boxes with four set or four unset slots, the boxes the walker
    builds, [merge_bounds] is commutative and associative. *)
Theorem merge_bounds_commutes_on_walker_boxes a b c :
  all_or_none a = true → all_or_none b = true → all_or_none c = true →
  merge_bounds a b = merge_bounds b a
  ∧ (ab ← merge_bounds a b; merge_bounds ab c)
    = (bc ← merge_bounds b c; merge_bounds a bc).
Proof.
  intros Ha Hb Hc. split.
  - by apply merge_bounds_comm_all_or_none.
  - by apply merge_bounds_assoc_all_or_none.
Qed.

(** The theorem at a unit box, the unset box and the box [(2, 2, 3, 3)]. *)
Lemma merge_bounds_commutes_on_walker_boxes_witness :
  all_or_none (box 0 0 1 1) = true
  ∧ all_or_none unset_bounds = true
  ∧ all_or_none (box #2 #2 #3 #3) = true
  ∧ merge_bounds (box 0 0 1 1) unset_bounds = merge_bounds unset_bounds (box 0 0 1 1)
  ∧ (ab ← merge_bounds (box 0 0 1 1) unset_bounds; merge_bounds ab (box #2 #2 #3 #3))
    = (bc ← merge_bounds unset_bounds (box #2 #2 #3 #3);
       merge_bounds (box 0 0 1 1) bc).
Proof.
  split; [reflexivity|]. split; [reflexivity|]. split; [reflexivity|].
  exact (merge_bounds_commutes_on_walker_boxes (box 0 0 1 1) unset_bounds
           (box #2 #2 #3 #3) eq_refl eq_refl eq_refl).
Defined.

(** ** The box of the walker is in order *)

Lemma update_bounds_ordered b p : ordered_box (update_bounds b p).
Proof.
  unfold update_bounds.
  destruct (update_slot_min (b0 b) (real p)) as (x0 & -> & Hx0 & _).
  destruct (update_slot_min (b1 b) (imag p)) as (y0 & -> & Hy0 & _).
  destruct (update_slot_max (b2 b) (real p)) as (x1 & -> & Hx1 & _).
  destruct (update_slot_max (b3 b) (imag p)) as (y1 & -> & Hy1 & _).
  simpl. split; [by apply Qcle_trans with (real p) | by apply Qcle_trans with (imag p)].
Qed.

Lemma ordered_box_all_or_none b : ordered_box b → all_or_none b = true.
Proof. by destruct b as [[?|] [?|] [?|] [?|]]. Qed.

Lemma merge_bounds_ordered a b :
  ordered_box a → ordered_box b →
  ∃ m, merge_bounds a b = Ok m ∧ ordered_box m.
Proof.
  intros Ha Hb.
  rewrite merge_bounds_join by by apply ordered_box_all_or_none.
  eexists. split; [done|].
  destruct a as [[a0|] [a1|] [a2|] [a3|]]; try done;
    destruct b as [[c0|] [c1|] [c2|] [c3|]]; try done; simpl in *.
  destruct Ha as [Hax Hay], Hb as [Hbx Hby].
  unfold Qc_ltb, Qc_gtb. repeat case_bool_decide; simpl; split; qc_order.
Qed.

Lemma fold_endpoints_ordered cs b :
  ordered_box b →
  ordered_box
    (foldl (λ b c, update_bounds (update_bounds b (cmd_start c)) (cmd_end c)) b cs).
Proof.
  revert b. induction cs as [|c cs IH]; intros b Hb; simpl; [done|].
  apply IH, update_bounds_ordered.
Qed.

Lemma handle_path_ordered {printer : Printer} e x y e1 B :
  handle_path e true x y = Ok (e1, Some B) → ordered_box B.
Proof.
  unfold handle_path, get_attrib.
  destruct (attrib e !! "d") as [[| | | |cs]|]; simpl; try done.
  rewrite path_loop_measure.
  destruct (forallb supported_command cs); simpl; [|done].
  intros [= _ <-]. by apply fold_endpoints_ordered.
Qed.

Lemma walk_bounds_ordered {printer : Printer} fuel :
  (∀ g x y g1 B,
     walk_group_fuel fuel g true x y = Ok (g1, B) → ordered_box B)
  ∧ (∀ x y i cs b cs1 B,
       ordered_box b →
       walk_loop fuel true x y i cs b = Ok (cs1, B) → ordered_box B).
Proof.
  induction fuel as [|fuel [IHg IHl]]; [by split|].
  split.
  - intros g x y g1 B. rewrite walk_group_fuel_S.
    intros ([cs1 B'] & Hloop & [= _ <-])%bind_Ok_inv.
    by apply (IHl _ _ _ _ _ _ _ (I : ordered_box unset_bounds) Hloop).
  - intros x y i cs b cs1 B Hb. rewrite walk_loop_S.
    destruct (cs !! i) as [e|]; [|by intros [= _ <-]].
    repeat case_bool_decide; try done; try by apply IHl.
    + intros ([e1 gb] & Hwalk & (b' & Hmerge & Hloop)%bind_Ok_inv)%bind_Ok_inv.
      apply IHg in Hwalk.
      destruct (merge_bounds_ordered b gb Hb Hwalk) as (out & Hout & Hord).
      rewrite Hout in Hmerge. injection Hmerge as <-.
      by apply (IHl _ _ _ _ _ _ _ Hord Hloop).
    + intros ([e1 pb] & Hh & (b' & Hmerge & Hloop)%bind_Ok_inv)%bind_Ok_inv.
      destruct pb as [pb|]; [|done]. simpl in Hmerge.
      apply handle_path_ordered in Hh.
      destruct (merge_bounds_ordered b pb Hb Hh) as (out & Hout & Hord).
      rewrite Hout in Hmerge. injection Hmerge as <-.
      by apply (IHl _ _ _ _ _ _ _ Hord Hloop).
    + intros ([e1 pos] & Hh & (b' & Hupd & Hloop)%bind_Ok_inv)%bind_Ok_inv.
      destruct pos as [pos|]; [|done]. simpl in Hupd. injection Hupd as <-.
      by apply (IHl _ _ _ _ _ _ _ (update_bounds_ordered b pos) Hloop).
Qed.

Lemma measure_pass_ordered {printer : Printer} cs :
  ∀ gb cs1 B,
    ordered_box gb → measure_pass cs gb = Ok (cs1, B) → ordered_box B.
Proof.
  induction cs as [|child rest IH]; intros gb cs1 B Hgb; simpl.
  { by intros [= _ <-]. }
  case_bool_decide.
  - intros ([c1 b] & Hwalk & (gb' & Hmerge & Hrest)%bind_Ok_inv)%bind_Ok_inv.
    apply (proj1 (walk_bounds_ordered _)) in Hwalk.
    destruct (merge_bounds_ordered gb b Hgb Hwalk) as (out & Hout & Hord).
    rewrite Hout in Hmerge. injection Hmerge as <-.
    apply bind_Ok_inv in Hrest as ([r1 B'] & Hrest & [= _ <-]).
    by apply (IH _ _ _ Hord Hrest).
  - intros ([r1 B'] & Hrest & [= _ <-])%bind_Ok_inv.
    by apply (IH _ _ _ Hgb Hrest).
Qed.

(** X6. The box a walk in bounds mode returns, and the global box of the
    first pass of [main], is unset or has its four slots set with
    [MinX <= MaxX] and [MinY <= MaxY]; [merge_bounds] is only ever called on
    such boxes, where it does not raise. *)
Theorem measured_box_is_in_order {printer : Printer} :
  (∀ g x y g1 B, walk_group g true x y = Ok (g1, B) → ordered_box B)
  ∧ (∀ cs cs1 B, measure_pass cs unset_bounds = Ok (cs1, B) → ordered_box B).
Proof.
  split.
  - intros g x y g1 B. apply walk_bounds_ordered.
  - intros cs cs1 B. by apply measure_pass_ordered.
Qed.

(** The theorem at a group of a path and a circle, alone under a root. *)
Lemma measured_box_is_in_order_witness :
  let g := group_of [path_of square_corner; circle_at 12 (-3) (VNum 1)] in
  walk_group g true 0 0 = Ok (g, box 0 (#(-3)) #12 #10)
  ∧ measure_pass [g] unset_bounds = Ok ([g], box 0 (#(-3)) #12 #10)
  ∧ ordered_box (box 0 (#(-3)) #12 #10).
Proof.
  intros g.
  assert (Hw : walk_group g true 0 0 = Ok (g, box 0 (#(-3)) #12 #10))
    by (vm_compute; reflexivity).
  assert (Hm : measure_pass [g] unset_bounds = Ok ([g], box 0 (#(-3)) #12 #10))
    by (vm_compute; reflexivity).
  split; [exact Hw|]. split; [exact Hm|].
  pose proof (proj1 measured_box_is_in_order g 0 0 g _ Hw) as Hgroup.
  pose proof (proj2 measured_box_is_in_order [g] [g] _ Hm) as Hroot.
  exact Hroot.
Defined.

(** ** What a walk leaves of a group *)

Lemma handle_path_keeps {printer : Printer} e m x y e1 r :
  handle_path e m x y = Ok (e1, r) →
  tag e1 = tag e ∧ children e1 = children e
  ∧ (∀ k, k ≠ "d" → attrib e1 !! k = attrib e !! k).
Proof.
  unfold handle_path.
  intros (d & _ & (cs & _ & ([cs' b] & _ & H)%bind_Ok_inv)%bind_Ok_inv)%bind_Ok_inv.
  destruct m; [by injection H as <- <-|].
  apply bind_Ok_inv in H as (printed & _ & [= <- <-]).
  repeat split. intros k Hk. cbn [attrib set_attrib].
  by rewrite lookup_insert_ne.
Qed.

Lemma handle_circle_keeps e m x y e1 r :
  handle_circle e m x y = Ok (e1, r) →
  tag e1 = tag e ∧ children e1 = children e
  ∧ (∀ k, k ≠ "cx" → k ≠ "cy" → attrib e1 !! k = attrib e !! k).
Proof.
  unfold handle_circle. destruct m.
  - intros (cx & _ & (cy & _ & [= <- <-])%bind_Ok_inv)%bind_Ok_inv. done.
  - intros (cx & _ & (cy & _ & [= <- <-])%bind_Ok_inv)%bind_Ok_inv.
    repeat split. intros k Hx Hy. cbn [attrib set_attrib].
    by rewrite !lookup_insert_ne.
Qed.

Lemma tags_insert_same (cs : list Element) i e e' :
  cs !! i = Some e → tag e' = tag e → tag <$> <[i:=e']> cs = tag <$> cs.
Proof.
  intros Hi Ht. rewrite list_fmap_insert, Ht.
  apply list_insert_id. by rewrite list_lookup_fmap, Hi.
Qed.

Lemma walk_keeps_shape {printer : Printer} fuel :
  (∀ g m x y g1 B,
     walk_group_fuel fuel g m x y = Ok (g1, B) →
     tag g1 = tag g ∧ attrib g1 = attrib g
     ∧ (tag <$> children g1) `sublist_of` (tag <$> children g)
     ∧ (m = false → B = unset_bounds))
  ∧ (∀ m x y i cs b cs1 B,
       walk_loop fuel m x y i cs b = Ok (cs1, B) →
       (tag <$> cs1) `sublist_of` (tag <$> cs) ∧ (m = false → B = b)).
Proof.
  induction fuel as [|fuel [IHg IHl]]; [by split|].
  split.
  - intros g m x y g1 B. rewrite walk_group_fuel_S.
    intros ([cs1 B'] & Hloop & [= <- <-])%bind_Ok_inv.
    destruct (IHl _ _ _ _ _ _ _ _ Hloop) as [Hsub Hb]. done.
  - intros m x y i cs b cs1 B. rewrite walk_loop_S.
    destruct (cs !! i) as [e|] eqn:Hi; [|by intros [= <- <-]].
    repeat case_bool_decide; try done.
    + apply IHl.
    + intros Hloop. destruct (IHl _ _ _ _ _ _ _ _ Hloop) as [Hsub Hb].
      split; [|done]. etransitivity; [exact Hsub|].
      rewrite list_fmap_delete. apply sublist_delete.
    + intros ([e1 gb] & Hwalk & (b' & Hmerge & Hloop)%bind_Ok_inv)%bind_Ok_inv.
      destruct (IHg _ _ _ _ _ _ Hwalk) as (Ht & _ & _ & _).
      destruct (IHl _ _ _ _ _ _ _ _ Hloop) as [Hsub Hb].
      rewrite (tags_insert_same cs i e e1 Hi Ht) in Hsub.
      split; [done|]. intros ->. injection Hmerge as ->. by apply Hb.
    + intros ([e1 pb] & Hh & (b' & Hmerge & Hloop)%bind_Ok_inv)%bind_Ok_inv.
      destruct (handle_path_keeps _ _ _ _ _ _ Hh) as (Ht & _ & _).
      destruct (IHl _ _ _ _ _ _ _ _ Hloop) as [Hsub Hb].
      rewrite (tags_insert_same cs i e e1 Hi Ht) in Hsub.
      split; [done|]. intros ->. injection Hmerge as ->. by apply Hb.
    + intros ([e1 pos] & Hh & (b' & Hupd & Hloop)%bind_Ok_inv)%bind_Ok_inv.
      destruct (handle_circle_keeps _ _ _ _ _ _ Hh) as (Ht & _ & _).
      destruct (IHl _ _ _ _ _ _ _ _ Hloop) as [Hsub Hb].
      rewrite (tags_insert_same cs i e e1 Hi Ht) in Hsub.
      split; [done|]. intros ->. injection Hupd as ->. by apply Hb.
Qed.

(** X7. A walk that returns leaves the tag and the attributes of the group
    as they were; the tags of the children it leaves are those of the
    children it was given, in their order, with some removed and none
    added; and in transform mode the bounds it returns are unset. *)
Theorem walk_group_keeps_shape {printer : Printer} g m x y g1 B :
  walk_group g m x y = Ok (g1, B) →
  tag g1 = tag g ∧ attrib g1 = attrib g
  ∧ (tag <$> children g1) `sublist_of` (tag <$> children g)
  ∧ (length (children g1) ≤ length (children g))%nat
  ∧ (m = false → B = unset_bounds).
Proof.
  intros H. destruct (proj1 (walk_keeps_shape _) _ _ _ _ _ _ H) as (Ht & Ha & Hs & Hb).
  repeat split; try done.
  apply sublist_length in Hs. by rewrite !length_fmap in Hs.
Qed.

(** The theorem at a group of a title, a text element, a circle and a path,
    moved by (1, 1). *)
Lemma walk_group_keeps_shape_witness :
  let g := group_of [title_node; text_node; circle_at 7 3 (VNum 1); diagonal] in
  ∃ g1, walk_group g false 1 1 = Ok (g1, unset_bounds)
        ∧ tag g1 = tag g ∧ attrib g1 = attrib g
        ∧ (tag <$> children g1) `sublist_of` (tag <$> children g)
        ∧ (length (children g1) ≤ length (children g))%nat
        ∧ (false = false → unset_bounds = unset_bounds).
Proof.
  intros g.
  destruct (walk_group g false 1 1) as [[g1 B]| | |] eqn:Hw;
    [|by vm_compute in Hw..].
  assert (HB : B = unset_bounds).
  { by destruct (walk_group_keeps_shape g false 1 1 g1 B Hw) as (_ & _ & _ & _ & ->). }
  subst B. exists g1. split; [done|].
  exact (walk_group_keeps_shape g false 1 1 g1 unset_bounds Hw).
Defined.

(** ** Ignored elements *)

Local Open Scope nat_scope.

Lemma walk_loop_ignored_step {printer : Printer} fuel m x y pre e post b :
  tag e ∈ ignore_tags →
  walk_loop (S fuel) m x y (length pre) (pre ++ e :: post) b
  = (λ r, (pre ++ e :: r.1, r.2)) <$> walk_loop fuel m x y 0 post b.
Proof.
  intros Hig.
  rewrite walk_loop_S, list_lookup_middle by done.
  rewrite bool_decide_eq_true_2 by done.
  pose proof (walk_loop_frame fuel m x y (pre ++ [e]) 0 post b) as Hframe.
  rewrite length_app, <- app_assoc in Hframe. simpl in Hframe.
  replace (length pre + 1 + 0) with (S (length pre)) in Hframe by lia.
  rewrite Hframe. destruct (walk_loop fuel m x y 0 post b) as [[l' b']| | |]; try done.
  simpl. by rewrite <- app_assoc.
Qed.

Lemma walk_group_ignored_head {printer : Printer} tg a e rest m x y :
  tag e ∈ ignore_tags →
  walk_group (mkElement tg a (e :: rest)) m x y
  = (λ r, (mkElement tg a (e :: children r.1), r.2))
      <$> walk_group (mkElement tg a rest) m x y.
Proof.
  intros Hig. rewrite !walk_group_loop. cbn [children].
  rewrite (walk_loop_ignored_step _ m x y [] e rest unset_bounds Hig).
  rewrite walk_loop_any_fuel.
  - by destruct (walk_loop _ m x y 0 rest unset_bounds) as [[cs b]| | |].
  - simpl. pose proof (weight_ge_2 e). lia.
Qed.

(** X8. An element with a tag of the ignore set is stepped over in either
    mode: it stays in the group as it is, with everything below it, and the
    bounds, the failure and the other children are those of walking the
    rest. Nothing below a title or a description is ever read. *)
Theorem ignored_element_is_stepped_over {printer : Printer} :
  (∀ fuel m x y pre e post b,
     tag e ∈ ignore_tags →
     walk_loop (S fuel) m x y (length pre) (pre ++ e :: post) b
     = (λ r, (pre ++ e :: r.1, r.2)) <$> walk_loop fuel m x y 0 post b)
  ∧ (∀ tg a e rest m x y,
       tag e ∈ ignore_tags →
       walk_group (mkElement tg a (e :: rest)) m x y
       = (λ r, (mkElement tg a (e :: children r.1), r.2))
           <$> walk_group (mkElement tg a rest) m x y).
Proof.
  split.
  - intros. by apply walk_loop_ignored_step.
  - intros. by apply walk_group_ignored_head.
Qed.

(** The theorem at a description that holds an unknown element, in front of
    a circle. *)
Lemma ignored_element_is_stepped_over_witness :
  let d := mkElement "desc" ∅ [mkElement "bogus" ∅ []] in
  let c := circle_at 7 3 (VNum 1%Qc) in
  tag d ∈ ignore_tags
  ∧ walk_loop 2 true 0%Qc 0%Qc (length [c]) ([c] ++ d :: [c]) unset_bounds
    = (λ r, ([c] ++ d :: r.1, r.2)) <$> walk_loop 1 true 0%Qc 0%Qc 0 [c] unset_bounds
  ∧ walk_group (mkElement "g" ∅ (d :: [c])) true 0%Qc 0%Qc
    = (λ r, (mkElement "g" ∅ (d :: children r.1), r.2))
        <$> walk_group (mkElement "g" ∅ [c]) true 0%Qc 0%Qc.
Proof.
  intros d c.
  assert (H : tag d ∈ ignore_tags)
    by (apply list_elem_of_further, list_elem_of_here).
  destruct ignored_element_is_stepped_over as (Hloop & Hgroup).
  split; [exact H|]. split.
  - exact (Hloop 1 true 0%Qc 0%Qc [c] d [c] unset_bounds H).
  - exact (Hgroup "g" ∅ d [c] true 0%Qc 0%Qc H).
Defined.

(** ** The two passes on a group without stripped elements *)

Local Open Scope Qc_scope.



(** Where the printing does not keep the moved path the round trip fails:
    with six digits, the path [M100.0625,200.03125 L300.5,400.25] moved by
    (0.5, 0.5) is printed [M100.562,200.531 L301,400.75], and the box
    measured after the move is not the first box moved. *)
Lemma round_trip_loses_digits :
  let p := [Move (pt 100.0625 200.03125) (pt 100.0625 200.03125);
            Line (pt 100.0625 200.03125) (pt 300.5 400.25)] in
  let g := group_of [path_of p] in
  strip_free g = true
  ∧ printed_as_moved #0.5 #0.5 g = false
  ∧ path_d (moved #0.5 #0.5 p)
    = inr [Move (Complex (binary64 #100.562) (binary64 #200.531))
                (Complex (binary64 #100.562) (binary64 #200.531));
           Line (Complex (binary64 #100.562) (binary64 #200.531))
                (pt 301 400.75)]
  ∧ measure_transform_measure g #0.5 #0.5
    = Ok (box #100.0625 #200.03125 #300.5 #400.25,
          box (binary64 #100.562) (binary64 #200.531) #301 #400.75)
  ∧ shift_bounds #0.5 #0.5 (box #100.0625 #200.03125 #300.5 #400.25)
    = box #100.5625 #200.53125 #301 #400.75
  ∧ binary64 #100.562 ≠ #100.5625.
Proof.
  intros p g. split; [reflexivity|]. split; [vm_compute; reflexivity|].
  repeat split; by_evaluation.
Qed.

(** ** The two modes stop alike *)

Lemma how_ended_fmap {A B} (f : A → B) (m : Outcome A) :
  how_ended (f <$> m) = how_ended m.
Proof. by destruct m. Qed.

Lemma how_ended_bind {A A' B B'} (m : Outcome A) (m' : Outcome A')
    (f : A → Outcome B) (f' : A' → Outcome B') :
  how_ended m = how_ended m' →
  (∀ a a', m = Ok a → m' = Ok a' → how_ended (f a) = how_ended (f' a')) →
  how_ended (m ≫= f) = how_ended (m' ≫= f').
Proof. destruct m, m'; simpl; try done. intros _ H. by apply H. Qed.

Lemma modes_end_alike_bind {printer : Printer} {A A' B B'}
    (m : Outcome A) (m' : Outcome A')
    (f : A → Outcome B) (f' : A' → Outcome B') :
  modes_end_alike m m' →
  (∀ a a', m = Ok a → m' = Ok a' → modes_end_alike (f a) (f' a')) →
  modes_end_alike (m ≫= f) (m' ≫= f').
Proof.
  intros [He|(path & e & Hp & ->)] Hk.
  - destruct m, m'; simpl in *; try done; [by apply Hk|by left..].
  - right. by exists path, e.
Qed.

Lemma modes_end_alike_fmap {printer : Printer} {A A' B B'}
    (m : Outcome A) (m' : Outcome A') (f : A → B) (f' : A' → B') :
  modes_end_alike m m' → modes_end_alike (f <$> m) (f' <$> m').
Proof.
  intros [He|(path & e & Hp & ->)].
  - left. by rewrite !how_ended_fmap.
  - right. by exists path, e.
Qed.

Lemma handle_path_modes_stop_alike {printer : Printer} e x y dx dy :
  modes_end_alike (handle_path e true x y) (handle_path e false dx dy).
Proof.
  unfold handle_path.
  destruct (get_attrib "d" e) as [d| | |]; try by left. simpl.
  destruct (parse_path d) as [cs| | |]; try by left. simpl.
  rewrite path_loop_measure, path_loop_transform.
  destruct (forallb supported_command cs); [|by left]. simpl.
  unfold print_path.
  destruct (path_d (map (λ c, manip_start_end c dx dy) cs)) as [err|printed] eqn:Hp.
  - right. by eexists _, err.
  - by left.
Qed.

Lemma handle_circle_modes_stop_alike e x y dx dy :
  how_ended (handle_circle e true x y) = how_ended (handle_circle e false dx dy).
Proof.
  unfold handle_circle, get_attrib.
  destruct (attrib e !! "cx") as [vx|]; [|done]. simpl.
  destruct (py_float vx) as [cx| | |]; try done. simpl.
  cbn [attrib set_attrib]. rewrite lookup_insert_ne by done.
  destruct (attrib e !! "cy") as [vy|]; [|done]. simpl.
  by destruct (py_float vy).
Qed.

Lemma handle_path_measure_some {printer : Printer} e x y e1 pb :
  handle_path e true x y = Ok (e1, pb) → ∃ B, pb = Some B ∧ all_or_none B = true.
Proof.
  intros H. assert (∃ B, pb = Some B) as [B ->].
  { unfold handle_path in H.
    apply bind_Ok_inv in H as (d & _ & H).
    apply bind_Ok_inv in H as (cs & _ & H).
    apply bind_Ok_inv in H as ([cs' b] & _ & H).
    injection H as _ <-. by eexists. }
  exists B. split; [done|]. by apply (handle_path_all_or_none _ _ _ _ _ H).
Qed.

Lemma handle_circle_measure_some e x y e1 pos :
  handle_circle e true x y = Ok (e1, pos) → ∃ p, pos = Some p.
Proof.
  unfold handle_circle.
  intros (cx & _ & (cy & _ & [= _ <-])%bind_Ok_inv)%bind_Ok_inv. by eexists.
Qed.

Lemma walk_loop_after_strip {printer : Printer} fuel m x y rest b :
  walk_loop fuel m x y 1 rest b =
  match rest with
  | [] => match fuel with O => OutOfFuel | S _ => Ok ([], b) end
  | s :: rest' => (λ r, (s :: r.1, r.2)) <$> walk_loop fuel m x y 0 rest' b
  end.
Proof.
  destruct rest as [|s rest']; [by destruct fuel|]. apply walk_loop_next.
Qed.

Lemma walk_modes_stop_alike {printer : Printer} x y dx dy fuel :
  (∀ g, modes_end_alike (walk_group_fuel fuel g true x y)
                        (walk_group_fuel fuel g false dx dy))
  ∧ (∀ l b b',
       all_or_none b = true →
       modes_end_alike (walk_loop fuel true x y 0 l b)
                       (walk_loop fuel false dx dy 0 l b')).
Proof.
  induction fuel as [|fuel [IHg IHl]]; [by split; intros; left|].
  split.
  - intros g. rewrite !walk_group_fuel_S.
    apply modes_end_alike_bind; [by apply IHl|]. intros [? ?] [? ?] _ _. by left.
  - intros [|e rest] b b' Hb; [by left|].
    rewrite !walk_loop_head.
    destruct (decide (tag e ∈ ignore_tags)) as [Hig|Hig].
    { decide_tags. rewrite !walk_loop_next.
      by apply modes_end_alike_fmap, IHl. }
    destruct (decide (tag e ∈ strip_tags)) as [Hst|Hst].
    { decide_tags. rewrite !walk_loop_after_strip.
      destruct rest as [|s rest']; [left; by destruct fuel|].
      by apply modes_end_alike_fmap, IHl. }
    destruct (decide (tag e = "g")) as [Hg|Hg].
    { decide_tags. apply modes_end_alike_bind; [apply IHg|].
      intros [e1 gb] [e2 gb2] Hm _.
      apply (proj1 (walk_bounds_all_or_none fuel)) in Hm.
      destruct (merge_bounds_keeps_all_or_none b gb Hb Hm) as (b1 & -> & Hb1).
      simpl. rewrite !walk_loop_next.
      by apply modes_end_alike_fmap, IHl. }
    destruct (decide (tag e = "path")) as [Hp|Hp].
    { decide_tags.
      apply modes_end_alike_bind; [apply handle_path_modes_stop_alike|].
      intros [e1 pb] [e2 pb2] Hm _.
      apply handle_path_measure_some in Hm as (B & -> & HB). simpl.
      destruct (merge_bounds_keeps_all_or_none b B Hb HB) as (b1 & -> & Hb1).
      simpl. rewrite !walk_loop_next.
      by apply modes_end_alike_fmap, IHl. }
    destruct (decide (tag e = "circle")) as [Hc|Hc]; [|left; by decide_tags].
    decide_tags.
    apply modes_end_alike_bind; [left; apply handle_circle_modes_stop_alike|].
    intros [e1 pos] [e2 pos2] Hm _.
    apply handle_circle_measure_some in Hm as (p & ->). simpl.
    rewrite !walk_loop_next.
    apply modes_end_alike_fmap, IHl, update_bounds_all_or_none.
Qed.

(** X10. On one and the same tree the two modes end alike, unless the
    transform mode stops in the printing of a path, on the exception that
    [Path.d()] raises: short of that, the walk in transform mode returns
    where the walk in bounds mode returns, and stops with the same exit or
    exception where that one stops. The same holds for the path handler,
    and the circle handler ends alike in the two modes. The merging of
    bounds never adds a failure of its own. *)
Theorem modes_stop_alike {printer : Printer} :
  (∀ g x y dx dy,
     how_ended (walk_group g true x y) = how_ended (walk_group g false dx dy)
     ∨ stopped_in_printing (walk_group g false dx dy))
  ∧ (∀ e x y dx dy,
       how_ended (handle_path e true x y) = how_ended (handle_path e false dx dy)
       ∨ stopped_in_printing (handle_path e false dx dy))
  ∧ (∀ e x y dx dy,
       how_ended (handle_circle e true x y)
       = how_ended (handle_circle e false dx dy)).
Proof.
  split; [|split].
  - intros. apply walk_modes_stop_alike.
  - intros. apply handle_path_modes_stop_alike.
  - intros. apply handle_circle_modes_stop_alike.
Qed.

(** ** What the transform mode of the handlers changes *)

(** X11. When the circle handler returns in transform mode it returns
    [None]; the new [cx] and [cy] are the centre that bounds mode reads,
    moved by the offsets; the tag, the children and every other attribute,
    the radius among them, are as before. *)
Theorem handle_circle_moves_centre_only e dx dy e2 r :
  handle_circle e false dx dy = Ok (e2, r) →
  r = None
  ∧ tag e2 = tag e ∧ children e2 = children e
  ∧ (∀ k, k ≠ "cx" → k ≠ "cy" → attrib e2 !! k = attrib e !! k)
  ∧ ∃ cx cy,
      handle_circle e true 0 0 = Ok (e, Some (Complex cx cy))
      ∧ attrib e2 !! "cx" = Some (VNum (cx + dx))
      ∧ attrib e2 !! "cy" = Some (VNum (cy + dy)).
Proof.
  intros H. pose proof (handle_circle_keeps _ _ _ _ _ _ H) as (Ht & Hc & Hk).
  unfold handle_circle in *.
  apply bind_Ok_inv in H as (cx & Hx & H).
  apply bind_Ok_inv in H as (cy & Hy & H). injection H as <- <-.
  split; [done|]. split; [done|]. split; [done|]. split; [done|].
  exists cx, cy. unfold get_attrib in *. cbn [attrib set_attrib] in *.
  rewrite lookup_insert_ne in Hy by done.
  rewrite Hx. simpl. rewrite Hy. simpl. split; [done|].
  rewrite lookup_insert_ne by done. by rewrite !lookup_insert_eq.
Qed.

(** The theorem at the circle at (7, 3) with a radius of 2, moved by
    (1, 1). *)
Lemma handle_circle_moves_centre_only_witness :
  let c := circle_at 7 3 (VNum #2) in
  ∃ e2, handle_circle c false 1 1 = Ok (e2, None)
        ∧ tag e2 = tag c ∧ children e2 = children c
        ∧ (∀ k, k ≠ "cx" → k ≠ "cy" → attrib e2 !! k = attrib c !! k)
        ∧ ∃ cx cy,
            handle_circle c true 0 0 = Ok (c, Some (Complex cx cy))
            ∧ attrib e2 !! "cx" = Some (VNum (cx + 1))
            ∧ attrib e2 !! "cy" = Some (VNum (cy + 1)).
Proof.
  intros c.
  destruct (handle_circle c false 1 1) as [[e2 r]| | |] eqn:H;
    [|by vm_compute in H..].
  destruct (handle_circle_moves_centre_only c 1 1 e2 r H) as (-> & Hrest).
  exists e2. split; [done|]. exact Hrest.
Defined.

Lemma cmd_shape_moved c dx dy : cmd_shape (manip_start_end c dx dy) = cmd_shape c.
Proof. by destruct c. Qed.

(** X12. When the path handler returns in transform mode it returns [None]
    and rewrites [d] alone, to what [path.d()] printed of the moved
    commands. The moved commands are as many as the commands of the old
    [d], each of a supported kind and with everything but its start and end
    as before (control points of curves, radius and flags of arcs), and the
    start and the end of each are the old ones moved by the offsets. What
    the new [d] holds of them is up to the printing. *)
Theorem handle_path_moves_endpoints_only {printer : Printer} e dx dy e2 r :
  handle_path e false dx dy = Ok (e2, r) →
  r = None
  ∧ tag e2 = tag e ∧ children e2 = children e
  ∧ (∀ k, k ≠ "d" → attrib e2 !! k = attrib e !! k)
  ∧ ∃ cs cs' printed,
      attrib e !! "d" = Some (VPath cs)
      ∧ path_d cs' = inr printed
      ∧ attrib e2 !! "d" = Some (VPath printed)
      ∧ forallb supported_command cs = true
      ∧ length cs' = length cs
      ∧ cmd_shape <$> cs' = cmd_shape <$> cs
      ∧ cmd_start <$> cs' = (move_point dx dy ∘ cmd_start) <$> cs
      ∧ cmd_end <$> cs' = (move_point dx dy ∘ cmd_end) <$> cs.
Proof.
  intros H. pose proof (handle_path_keeps _ _ _ _ _ _ H) as (Ht & Hc & Hk).
  unfold handle_path, get_attrib in H.
  destruct (attrib e !! "d") as [[| | | |cs]|] eqn:Hd; simpl in H; try done.
  rewrite path_loop_transform in H.
  destruct (forallb supported_command cs) eqn:Hs; simpl in H; [|done].
  unfold print_path in H.
  destruct (path_d (map (λ c, manip_start_end c dx dy) cs)) as [err|printed] eqn:Hp;
    simpl in H; [done|].
  injection H as <- <-.
  split; [done|]. split; [done|]. split; [done|]. split; [done|].
  exists cs, (map (λ c, manip_start_end c dx dy) cs), printed.
  split; [done|]. split; [done|].
  cbn [attrib set_attrib]. rewrite lookup_insert_eq.
  split; [done|]. split; [done|]. split; [apply length_map|].
  clear. repeat split; induction cs as [|c cs IH]; simpl; try done;
    rewrite ?cmd_shape_moved, ?manip_start_end_start, ?manip_start_end_end;
    by f_equal.
Qed.

(** The theorem at a path of a move, a curve and an arc, moved by
    (1, 2), with the printing of six digits. *)
Lemma handle_path_moves_endpoints_only_witness :
  let cs := [Move (pt 0 0) (pt 0 0);
             CubicBezier (pt 0 0) (pt 1 5) (pt 4 5) (pt 5 0);
             Arc (pt 5 0) (pt 2 2) 0 false true (pt 9 0)] in
  ∃ e2, handle_path (path_of cs) false 1 #2 = Ok (e2, None)
        ∧ ∃ cs' printed,
            path_d cs' = inr printed
            ∧ attrib e2 !! "d" = Some (VPath printed)
            ∧ length cs' = length cs
            ∧ cmd_shape <$> cs' = cmd_shape <$> cs
            ∧ cmd_start <$> cs' = (move_point 1 #2 ∘ cmd_start) <$> cs
            ∧ cmd_end <$> cs' = (move_point 1 #2 ∘ cmd_end) <$> cs.
Proof.
  intros cs.
  destruct (handle_path (path_of cs) false 1 #2) as [[e2 r]| | |] eqn:H;
    [|by vm_compute in H..].
  destruct (handle_path_moves_endpoints_only (path_of cs) 1 #2 e2 r H)
    as (-> & _ & _ & _ & cs0 & cs' & printed & Hd & Hp & Hd' & _ & Hlen
        & Hshape & Hstart & Hend).
  assert (cs0 = cs) as -> by (by injection Hd).
  exists e2. split; [done|]. by exists cs', printed.
Defined.

(** X13. A missing attribute raises the [KeyError] of its key, in either
    mode: [d] in the path handler, [cx] and then [cy] in the circle handler,
    [width], then [height], then (once the sizes resolve) [viewBox] in the
    scaling analysis. *)
Theorem missing_attribute_raises_key_error {printer : Printer} :
  (∀ e m x y, attrib e !! "d" = None →
     handle_path e m x y = Raise (KeyError "d"))
  ∧ (∀ e m x y, attrib e !! "cx" = None →
       handle_circle e m x y = Raise (KeyError "cx"))
  ∧ (∀ e m x y cx, attrib e !! "cx" = Some (VNum cx) → attrib e !! "cy" = None →
       handle_circle e m x y = Raise (KeyError "cy"))
  ∧ (∀ root, attrib root !! "width" = None →
       analyze_scaling root = Raise (KeyError "width"))
  ∧ (∀ root w, attrib root !! "width" = Some w → attrib root !! "height" = None →
       analyze_scaling root = Raise (KeyError "height"))
  ∧ (∀ root dim, resolve_dimensions root = Ok (Some dim) →
       attrib root !! "viewBox" = None →
       analyze_scaling root = Raise (KeyError "viewBox")).
Proof.
  repeat split.
  - intros e m x y H. unfold handle_path, get_attrib. by rewrite H.
  - intros e m x y H. unfold handle_circle, get_attrib. rewrite H. by destruct m.
  - intros e m x y cx Hx Hy. unfold handle_circle, get_attrib. rewrite Hx.
    destruct m; simpl; cbn [attrib set_attrib];
      rewrite ?lookup_insert_ne by done; by rewrite Hy.
  - intros root H. unfold analyze_scaling, resolve_dimensions, get_attrib.
    by rewrite H.
  - intros root w Hw Hh. unfold analyze_scaling, resolve_dimensions, get_attrib.
    by rewrite Hw, Hh.
  - intros root [w h] Hdim Hvb. unfold analyze_scaling, get_attrib.
    by rewrite Hdim, Hvb.
Qed.

(** The theorem at elements without attributes and at a root with sizes
    alone. *)
Lemma missing_attribute_raises_key_error_witness :
  let bare := mkElement "path" ∅ [] in
  let half := mkElement "circle" {[ "cx" := VNum 1 ]} [] in
  let wide := mkElement "svg" {[ "width" := VLen 1 "mm" ]} [] in
  let sized := mkElement "svg" {[ "width" := VLen 1 "mm"; "height" := VLen 1 "mm" ]} [] in
  handle_path bare true 0 0 = Raise (KeyError "d")
  ∧ handle_circle bare false 0 0 = Raise (KeyError "cx")
  ∧ handle_circle half false 0 0 = Raise (KeyError "cy")
  ∧ analyze_scaling bare = Raise (KeyError "width")
  ∧ analyze_scaling wide = Raise (KeyError "height")
  ∧ analyze_scaling sized = Raise (KeyError "viewBox").
Proof.
  intros bare half wide sized.
  destruct missing_attribute_raises_key_error as (Hd & Hcx & Hcy & Hw & Hh & Hv).
  split; [exact (Hd bare true 0 0 eq_refl)|].
  split; [exact (Hcx bare false 0 0 eq_refl)|].
  split; [exact (Hcy half false 0 0 1 eq_refl eq_refl)|].
  split; [exact (Hw bare eq_refl)|].
  split; [exact (Hh wide (VLen 1 "mm") eq_refl eq_refl)|].
  exact (Hv sized (binary64 1, binary64 1) eq_refl eq_refl).
Defined.

(** ** Tags and their namespace *)

Local Open Scope nat_scope.

Lemma append_empty s : "" +:+ s = s.
Proof. reflexivity. Qed.

Lemma append_String a s1 s2 : String a s1 +:+ s2 = String a (s1 +:+ s2).
Proof. reflexivity. Qed.

Lemma append_brace pre t : pre +:+ String "}"%char t = (pre +:+ "}") +:+ t.
Proof.
  induction pre as [|a pre IH]; [done|].
  by rewrite !append_String, IH.
Qed.

Lemma length_append_brace pre :
  String.length (pre +:+ "}") = String.length pre + 1.
Proof.
  induction pre as [|a pre IH]; [done|].
  rewrite append_String. simpl. by rewrite IH.
Qed.

Lemma rindex_app c s1 s2 :
  rindex c (s1 +:+ s2) =
  match rindex c s2 with
  | Some k => Some (String.length s1 + k)
  | None => rindex c s1
  end.
Proof.
  induction s1 as [|a s1 IH].
  - rewrite append_empty. by destruct (rindex c s2).
  - rewrite append_String. simpl. rewrite IH. by destruct (rindex c s2).
Qed.

Lemma string_drop_app s1 s2 : string_drop (String.length s1) (s1 +:+ s2) = s2.
Proof.
  induction s1 as [|a s1 IH]; [by destruct s2|].
  rewrite append_String. simpl. apply IH.
Qed.

Lemma rindex_Some c s k :
  rindex c s = Some k →
  ∃ pre post, s = pre +:+ String c post ∧ String.length pre = k
              ∧ rindex c post = None.
Proof.
  revert k. induction s as [|a s IH]; intros k; simpl; [done|].
  destruct (rindex c s) as [j|] eqn:E.
  - intros [= <-]. destruct (IH j eq_refl) as (pre & post & -> & <- & Hpost).
    by exists (String a pre), post.
  - case_bool_decide as Ha; [|done]. intros [= <-]. subst a.
    by exists EmptyString, s.
Qed.

(** X14. [normalize_tag] returns [t] exactly on the strings made of any
    text, a closing brace and a [t] without closing brace: it cuts at the
    last brace. It raises [ValueError] exactly on the strings without a
    closing brace, so every tag it returns makes it raise when it is
    applied again. *)
Theorem normalize_tag_cuts_at_last_brace s :
  (∀ t, normalize_tag s = Ok t ↔
        rindex "}"%char t = None ∧ ∃ pre, s = pre +:+ "}" +:+ t)
  ∧ (normalize_tag s = Raise ValueError ↔ rindex "}"%char s = None)
  ∧ (∀ t, normalize_tag s = Ok t → normalize_tag t = Raise ValueError).
Proof.
  assert (Hspec : ∀ t, normalize_tag s = Ok t ↔
            rindex "}"%char t = None ∧ ∃ pre, s = pre +:+ "}" +:+ t).
  { intros t. unfold normalize_tag. split.
    - destruct (rindex "}"%char s) as [k|] eqn:E; [|done]. intros [= <-].
      destruct (rindex_Some _ _ _ E) as (pre & post & -> & <- & Hpost).
      rewrite <- length_append_brace, (append_brace pre post), string_drop_app.
      split; [done|]. exists pre. symmetry. apply append_brace.
    - intros (Ht & pre & ->).
      change ("}" +:+ t) with (String "}"%char t).
      rewrite rindex_app. simpl. rewrite Ht. simpl. f_equal.
      rewrite Nat.add_0_r, <- length_append_brace, (append_brace pre t).
      apply string_drop_app. }
  split; [exact Hspec|]. split.
  - unfold normalize_tag. by destruct (rindex "}"%char s).
  - intros t [Ht _]%Hspec. unfold normalize_tag. by rewrite Ht.
Qed.

(** The theorem at the tag of a group in the namespace of SVG. *)
Lemma normalize_tag_cuts_at_last_brace_witness :
  normalize_tag (ns "g") = Ok "g"
  ∧ rindex "}"%char "g" = None
  ∧ normalize_tag "g" = Raise ValueError.
Proof.
  assert (H : normalize_tag (ns "g") = Ok "g") by reflexivity.
  destruct (normalize_tag_cuts_at_last_brace (ns "g")) as (Hspec & _ & Htwice).
  split; [exact H|]. split; [exact (proj1 (proj1 (Hspec "g") H))|].
  exact (Htwice "g" H).
Defined.

Lemma Element_nested_ind (P : Element → Prop) :
  (∀ t a cs, Forall P cs → P (mkElement t a cs)) → ∀ e, P e.
Proof.
  intros H. fix IH 1. intros [t a cs]. apply H.
  induction cs as [|c cs IHcs]; constructor; [apply IH | apply IHcs].
Qed.

Lemma normalize_tree_unfold t a cs :
  normalize_tree (mkElement t a cs) =
  (t' ← normalize_tag t;
   cs' ← normalize_children cs;
   mret (mkElement t' a cs')).
Proof. reflexivity. Qed.

Lemma normalize_tag_outcome t :
  normalize_tag t =
  if bool_decide (is_Some (rindex "}"%char t))
  then Ok (match rindex "}"%char t with
           | Some k => string_drop (k + 1) t
           | None => t
           end)
  else Raise ValueError.
Proof.
  unfold normalize_tag. destruct (rindex "}"%char t) as [k|].
  - by rewrite bool_decide_eq_true_2 by by eexists.
  - rewrite bool_decide_eq_false_2; [done|]. by intros [? ?].
Qed.

Lemma normalize_tree_outcome e :
  if tags_braced e
  then ∃ e', normalize_tree e = Ok e'
             ∧ length (children e') = length (children e)
             ∧ attrib e' = attrib e
             ∧ normalize_tag (tag e) = Ok (tag e')
  else normalize_tree e = Raise ValueError.
Proof.
  induction e as [t a cs IH] using Element_nested_ind.
  rewrite normalize_tree_unfold, normalize_tag_outcome. cbn [tags_braced].
  destruct (bool_decide (is_Some (rindex "}"%char t))) eqn:Hb; [|done]. simpl.
  assert (Hcs : if forallb tags_braced cs
                then ∃ cs', normalize_children cs = Ok cs' ∧ length cs' = length cs
                else normalize_children cs = Raise ValueError).
  { induction IH as [|c cs Hc _ IHcs]; simpl; [by exists []|].
    destruct (tags_braced c).
    - destruct Hc as (c' & -> & _). simpl.
      destruct (forallb tags_braced cs).
      + destruct IHcs as (cs' & -> & Hlen). simpl.
        eexists. split; [done|]. simpl. by rewrite Hlen.
      + by rewrite IHcs.
    - by rewrite Hc. }
  destruct (forallb tags_braced cs).
  - destruct Hcs as (cs' & -> & Hlen). simpl. eexists.
    split; [done|]. split; [done|]. split; [done|].
    by rewrite normalize_tag_outcome, Hb.
  - by rewrite Hcs.
Qed.

(** X15. The loop of [main] over the tags returns exactly on the documents
    in which every tag, of the root and of every element below it, holds a
    closing brace; on every other document [main] raises [ValueError]
    before it looks at anything else: a file without namespace is not
    processed. When the loop returns it keeps the attributes and the number
    of children of the root. *)
Theorem main_needs_namespaced_tags {printer : Printer} document :
  (tags_braced document = false →
     normalize_tree document = Raise ValueError
     ∧ ∀ args, main args document = Raise ValueError)
  ∧ (tags_braced document = true →
       ∃ root, normalize_tree document = Ok root
               ∧ length (children root) = length (children document)
               ∧ attrib root = attrib document
               ∧ normalize_tag (tag document) = Ok (tag root)).
Proof.
  pose proof (normalize_tree_outcome document) as H.
  split; intros Hb; rewrite Hb in H; [|done].
  split; [done|]. intros args. unfold main. by rewrite H.
Qed.

(** The theorem at a document whose circle has a tag without namespace, and
    at the example document of the layout. *)
Lemma main_needs_namespaced_tags_witness :
  let bad := mkElement (ns "svg") ∅ [mkElement (ns "g") ∅ [mkElement "circle" ∅ []]] in
  tags_braced bad = false
  ∧ main default_args bad = Raise ValueError
  ∧ tags_braced doc_layout_example = true
  ∧ ∃ root, normalize_tree doc_layout_example = Ok root
            ∧ length (children root) = length (children doc_layout_example)
            ∧ attrib root = attrib doc_layout_example
            ∧ normalize_tag (tag doc_layout_example) = Ok (tag root).
Proof.
  intros bad.
  assert (Hbad : tags_braced bad = false) by reflexivity.
  assert (Hgood : tags_braced doc_layout_example = true) by reflexivity.
  split; [exact Hbad|].
  split; [exact (proj2 (proj1 (main_needs_namespaced_tags bad) Hbad) default_args)|].
  split; [exact Hgood|].
  exact (proj2 (main_needs_namespaced_tags doc_layout_example) Hgood).
Defined.

(** ** Units and the view box *)

Local Open Scope Qc_scope.



(** X17. When the scaling analysis returns, the sizes it returns are the
    resolved sizes, [viewBox] holds four numbers of which the width and the
    height are not zero, and the scale it returns is the float quotient of
    the width by the width of the view box and equally the float quotient
    of the height by the height of the view box. *)
Theorem analyze_scaling_returns_equal_ratios root w h s :
  analyze_scaling root = Ok (w, h, s) →
  resolve_dimensions root = Ok (Some (w, h))
  ∧ ∃ a b vw vh,
      attrib root !! "viewBox" = Some (VNums [a; b; vw; vh])
      ∧ binary64 vw ≠ 0 ∧ binary64 vh ≠ 0
      ∧ s = binary64 (w / binary64 vw) ∧ s = binary64 (h / binary64 vh).
Proof.
  unfold analyze_scaling.
  destruct (resolve_dimensions root) as [[[w' h']|]| | |]; simpl; try done.
  unfold get_attrib.
  destruct (attrib root !! "viewBox") as [v|]; simpl; [|done].
  destruct v as [| | |xs|]; simpl; try done.
  destruct xs as [|a [|b [|vw [|vh [|? ?]]]]]; simpl; try done.
  unfold py_div. repeat case_bool_decide; simpl; try done.
  destruct (decide (binary64 (h' / binary64 vh) = binary64 (w' / binary64 vw)))
    as [Heq|Hne].
  - rewrite bool_decide_eq_false_2 by (by intros Hn).
    intros [= -> -> <-]. split; [done|].
    exists a, b, vw, vh. by repeat split.
  - by rewrite bool_decide_eq_true_2.
Qed.

(** The theorem at a document of 20 cm by 10 cm with a view box of 400 by
    200. *)
Lemma analyze_scaling_returns_equal_ratios_witness :
  let root := mkElement "svg"
                {[ "width" := VLen #20 "cm"; "height" := VLen #10 "cm";
                   "viewBox" := VNums [0; 0; #400; #200] ]} [] in
  analyze_scaling root = Ok (#200, #100, #0.5)
  ∧ resolve_dimensions root = Ok (Some (#200, #100))
  ∧ ∃ a b vw vh,
      attrib root !! "viewBox" = Some (VNums [a; b; vw; vh])
      ∧ binary64 vw ≠ 0 ∧ binary64 vh ≠ 0
      ∧ #0.5 = binary64 (#200 / binary64 vw)
      ∧ #0.5 = binary64 (#100 / binary64 vh).
Proof.
  intros root.
  assert (H : analyze_scaling root = Ok (#200, #100, #0.5)) by by_evaluation.
  split; [exact H|].
  exact (analyze_scaling_returns_equal_ratios root _ _ _ H).
Defined.

(** X18. With sizes that resolve, a [viewBox] whose width is zero, or whose
    height is zero, raises [ZeroDivisionError], and a [viewBox] that does
    not hold four numbers raises [ValueError]; none of them is reported as
    unequal scaling. *)
Theorem analyze_scaling_bad_view_box root dim :
  resolve_dimensions root = Ok (Some dim) →
  (∀ a b vh, attrib root !! "viewBox" = Some (VNums [a; b; 0; vh]) →
     analyze_scaling root = Raise ZeroDivisionError)
  ∧ (∀ a b vw, attrib root !! "viewBox" = Some (VNums [a; b; vw; 0]) →
       analyze_scaling root = Raise ZeroDivisionError)
  ∧ (∀ xs, attrib root !! "viewBox" = Some (VNums xs) → length xs ≠ 4%nat →
       analyze_scaling root = Raise ValueError).
Proof.
  intros Hdim. destruct dim as [w h]. repeat split.
  - intros a b vh Hvb. unfold analyze_scaling, get_attrib.
    rewrite Hdim, Hvb. by simpl.
  - intros a b vw Hvb. unfold analyze_scaling, get_attrib.
    rewrite Hdim, Hvb. simpl. unfold py_div.
    by case_bool_decide.
  - intros xs Hvb Hlen. unfold analyze_scaling, get_attrib.
    rewrite Hdim, Hvb. simpl.
    by destruct xs as [|a [|b [|vw [|vh [|? ?]]]]].
Qed.

(** The theorem at documents of 10 mm by 10 mm with such view boxes. *)
Lemma analyze_scaling_bad_view_box_witness :
  let root xs := mkElement "svg"
                   {[ "width" := VLen #10 "mm"; "height" := VLen #10 "mm";
                      "viewBox" := VNums xs ]} [] in
  analyze_scaling (root [0; 0; 0; #10]) = Raise ZeroDivisionError
  ∧ analyze_scaling (root [0; 0; #10; 0]) = Raise ZeroDivisionError
  ∧ analyze_scaling (root [0; 0; #10]) = Raise ValueError.
Proof.
  intros root.
  split; [|split].
  - exact (proj1 (analyze_scaling_bad_view_box (root [0; 0; 0; #10])
                    (binary64 #10, binary64 #10) eq_refl)
             0 0 #10 eq_refl).
  - exact (proj1 (proj2 (analyze_scaling_bad_view_box (root [0; 0; #10; 0])
                           (binary64 #10, binary64 #10) eq_refl))
             0 0 #10 eq_refl).
  - refine (proj2 (proj2 (analyze_scaling_bad_view_box (root [0; 0; #10])
                            (binary64 #10, binary64 #10) eq_refl))
              [0; 0; #10] eq_refl _).
    simpl. lia.
Defined.

(** ** The run as a whole *)

Lemma analyze_scaling_reads_attributes root cs :
  analyze_scaling (set_children root cs) = analyze_scaling root.
Proof. reflexivity. Qed.

Lemma main_after_normalize {printer : Printer} args document root :
  normalize_tree document = Ok root →
  main args document =
  ('(cs, global_bounds) ← measure_pass (children root) unset_bounds;
   '(_, _, mm_per_uu) ← analyze_scaling root;
   '(x_off, y_off) ←
     offsets global_bounds (of_int (rect_width args)) (rect_padding_mm args) mm_per_uu;
   cs2 ← transform_pass cs x_off y_off;
   '(uuwidth, uuheight) ←
     canvas_size global_bounds (of_int (rect_width args)) (rect_padding_mm args)
       mm_per_uu;
   per_mm ← py_div 1 mm_per_uu;
   mret (mkElement (tag root)
           (<["viewBox" := VNums [0; 0; uuwidth; uuheight]]>
              (<["height" := VLen (mm_per_uu * uuheight) "mm"]>
                 (<["width" := VLen (mm_per_uu * uuwidth) "mm"]> (attrib root))))
           (cs2 ++ [mkElement "g" ∅
                      [rect_element (of_int (rect_width args) * per_mm)
                         uuwidth uuheight (rect_color args)]]),
         mm_per_uu * uuwidth, mm_per_uu * uuheight)).
Proof.
  intros Hnorm. unfold main. rewrite Hnorm.
  cbn [mbind outcome_mbind outcome_bind].
  by destruct (measure_pass (children root) unset_bounds) as [[cs gb]| | |].
Qed.

(** X19. A document whose first pass measures the unset box, because the
    root holds no group or the groups hold nothing that is measured, ends
    in a [TypeError] once its scaling is accepted: [main] negates the unset
    minimum. An empty drawing is not reported as such. *)
Theorem main_without_geometry_raises {printer : Printer} args document root cs scaling :
  normalize_tree document = Ok root →
  measure_pass (children root) unset_bounds = Ok (cs, unset_bounds) →
  analyze_scaling root = Ok scaling →
  main args document = Raise TypeError.
Proof.
  intros Hnorm Hpass Hscale.
  rewrite (main_after_normalize _ _ _ Hnorm), Hpass.
  cbn [mbind outcome_mbind outcome_bind]. rewrite Hscale.
  by destruct scaling as [[w h] s].
Qed.

(** The theorem at a document whose only group holds a title. *)
Lemma main_without_geometry_raises_witness :
  let document :=
    mkElement (ns "svg")
      {[ "width" := VLen #100 "mm"; "height" := VLen #100 "mm";
         "viewBox" := VNums [0; 0; #100; #100] ]}
      [mkElement (ns "g") ∅ [mkElement (ns "title") ∅ []]] in
  let root :=
    mkElement "svg"
      {[ "width" := VLen #100 "mm"; "height" := VLen #100 "mm";
         "viewBox" := VNums [0; 0; #100; #100] ]}
      [mkElement "g" ∅ [mkElement "title" ∅ []]] in
  normalize_tree document = Ok root
  ∧ measure_pass (children root) unset_bounds = Ok (children root, unset_bounds)
  ∧ analyze_scaling root = Ok (#100, #100, #100 / #100)
  ∧ main default_args document = Raise TypeError.
Proof.
  intros document root.
  assert (Hn : normalize_tree document = Ok root) by reflexivity.
  assert (Hp : measure_pass (children root) unset_bounds
               = Ok (children root, unset_bounds)) by reflexivity.
  assert (Hs : analyze_scaling root = Ok (#100, #100, #100 / #100)) by by_evaluation.
  split; [exact Hn|]. split; [exact Hp|]. split; [exact Hs|].
  exact (main_without_geometry_raises default_args document root _ _ Hn Hp Hs).
Defined.

(** X20. A document declared 0 wide and 0 high is accepted by the scaling
    analysis with the scale zero, and a measured content then makes [main]
    raise [ZeroDivisionError] when it divides by that scale for the
    offsets. *)
Theorem main_with_zero_scale_raises {printer : Printer} args document root cs B w h :
  normalize_tree document = Ok root →
  measure_pass (children root) unset_bounds = Ok (cs, B) →
  full_box B = true →
  analyze_scaling root = Ok (w, h, 0) →
  main args document = Raise ZeroDivisionError.
Proof.
  intros Hnorm Hpass HB Hscale.
  rewrite (main_after_normalize _ _ _ Hnorm), Hpass.
  cbn [mbind outcome_mbind outcome_bind]. rewrite Hscale.
  by destruct B as [[?|] [?|] [?|] [?|]].
Qed.

(** The theorem at a document of 0 mm by 0 mm that holds a circle. *)
Lemma main_with_zero_scale_raises_witness :
  let document :=
    mkElement (ns "svg")
      {[ "width" := VLen 0 "mm"; "height" := VLen 0 "mm";
         "viewBox" := VNums [0; 0; #100; #100] ]}
      [mkElement (ns "g") ∅
         [mkElement (ns "circle") {[ "cx" := VNum #7; "cy" := VNum #3 ]} []]] in
  main default_args document = Raise ZeroDivisionError.
Proof.
  intros document.
  destruct (normalize_tree document) as [root| | |] eqn:Hn;
    [|by vm_compute in Hn..].
  destruct (measure_pass (children root) unset_bounds) as [[cs B]| | |] eqn:Hp;
    [|vm_compute in Hn; injection Hn as <-; by vm_compute in Hp..].
  assert (HB : full_box B = true).
  { vm_compute in Hn. injection Hn as <-. vm_compute in Hp. by injection Hp as _ <-. }
  assert (Hs : analyze_scaling root = Ok (0, 0, 0)).
  { vm_compute in Hn. injection Hn as <-. by_evaluation. }
  exact (main_with_zero_scale_raises default_args document root cs B 0 0 Hn Hp HB Hs).
Defined.

Lemma measure_pass_tags {printer : Printer} cs :
  ∀ gb cs1 B, measure_pass cs gb = Ok (cs1, B) → tag <$> cs1 = tag <$> cs.
Proof.
  induction cs as [|child rest IH]; intros gb cs1 B; simpl.
  { by intros [= <- _]. }
  case_bool_decide.
  - intros ([c1 b] & Hwalk & (gb' & Hmerge & Hrest)%bind_Ok_inv)%bind_Ok_inv.
    apply bind_Ok_inv in Hrest as ([r1 B'] & Hrest & [= <- _]).
    destruct (proj1 (walk_keeps_shape _) _ _ _ _ _ _ Hwalk) as (Ht & _).
    rewrite !fmap_cons, Ht. f_equal. by apply (IH _ _ _ Hrest).
  - intros ([r1 B'] & Hrest & [= <- _])%bind_Ok_inv.
    rewrite !fmap_cons. f_equal. by apply (IH _ _ _ Hrest).
Qed.

Lemma transform_pass_tags {printer : Printer} cs x y :
  ∀ cs2, transform_pass cs x y = Ok cs2 → tag <$> cs2 = tag <$> cs.
Proof.
  induction cs as [|child rest IH]; intros cs2; simpl.
  { by intros [= <-]. }
  case_bool_decide.
  - intros (r2 & Hrest & [= <-])%bind_Ok_inv.
    rewrite !fmap_cons. f_equal. by apply (IH _ Hrest).
  - intros ([c2 b] & Hwalk & (r2 & Hrest & [= <-])%bind_Ok_inv)%bind_Ok_inv.
    destruct (proj1 (walk_keeps_shape _) _ _ _ _ _ _ Hwalk) as (Ht & _).
    rewrite !fmap_cons, Ht. f_equal. by apply (IH _ Hrest).
Qed.

Lemma main_Ok_inv {printer : Printer} args document root out mmw mmh :
  normalize_tree document = Ok root →
  main args document = Ok (out, mmw, mmh) →
  ∃ cs gb w h s x_off y_off cs2 uuw uuh per,
    measure_pass (children root) unset_bounds = Ok (cs, gb)
    ∧ analyze_scaling root = Ok (w, h, s)
    ∧ offsets gb (of_int (rect_width args)) (rect_padding_mm args) s = Ok (x_off, y_off)
    ∧ transform_pass cs x_off y_off = Ok cs2
    ∧ canvas_size gb (of_int (rect_width args)) (rect_padding_mm args) s = Ok (uuw, uuh)
    ∧ py_div 1 s = Ok per
    ∧ mmw = s * uuw ∧ mmh = s * uuh
    ∧ out = mkElement (tag root)
              (<["viewBox" := VNums [0; 0; uuw; uuh]]>
                 (<["height" := VLen (s * uuh) "mm"]>
                    (<["width" := VLen (s * uuw) "mm"]> (attrib root))))
              (cs2 ++ [mkElement "g" ∅
                         [rect_element (of_int (rect_width args) * per)
                            uuw uuh (rect_color args)]]).
Proof.
  intros Hnorm. rewrite (main_after_normalize _ _ _ Hnorm).
  intros ([cs gb] & Hpass & H)%bind_Ok_inv.
  apply bind_Ok_inv in H as ([[w h] s] & Hscale & H).
  apply bind_Ok_inv in H as ([x_off y_off] & Hoff & H).
  apply bind_Ok_inv in H as (cs2 & Htr & H).
  apply bind_Ok_inv in H as ([uuw uuh] & Hcanvas & H).
  apply bind_Ok_inv in H as (per & Hper & H).
  injection H as <- <- <-.
  by exists cs, gb, w, h, s, x_off, y_off, cs2, uuw, uuh, per.
Qed.

(** X21. When [main] returns, the root keeps its tag; its children are the
    children it had, none removed and in their order (a text element under
    the root is not stripped), followed by one new group that holds the
    border rectangle alone; [viewBox] starts at the origin; [width] and
    [height] are the returned sizes in millimetres; every other attribute
    of the root is as it was. *)
Theorem main_output_shape {printer : Printer} args document root out mmw mmh :
  normalize_tree document = Ok root →
  main args document = Ok (out, mmw, mmh) →
  tag out = tag root
  ∧ ∃ content uuw uuh per,
      children out
      = content ++ [mkElement "g" ∅
                      [rect_element (of_int (rect_width args) * per) uuw uuh
                         (rect_color args)]]
      ∧ tag <$> content = tag <$> children root
      ∧ attrib out !! "viewBox" = Some (VNums [0; 0; uuw; uuh])
      ∧ attrib out !! "width" = Some (VLen mmw "mm")
      ∧ attrib out !! "height" = Some (VLen mmh "mm")
      ∧ (∀ k, k ≠ "viewBox" → k ≠ "width" → k ≠ "height" →
              attrib out !! k = attrib root !! k).
Proof.
  intros Hnorm Hmain.
  destruct (main_Ok_inv _ _ _ _ _ _ Hnorm Hmain)
    as (cs & gb & w & h & s & x_off & y_off & cs2 & uuw & uuh & per
        & Hpass & _ & _ & Htr & _ & _ & -> & -> & ->).
  split; [done|]. exists cs2, uuw, uuh, per. cbn [children attrib].
  split; [done|].
  split; [by rewrite (transform_pass_tags _ _ _ _ Htr), (measure_pass_tags _ _ _ _ Hpass)|].
  split; [by rewrite lookup_insert_eq|].
  split; [rewrite !lookup_insert_ne by done; by rewrite lookup_insert_eq|].
  split; [rewrite lookup_insert_ne by done; by rewrite lookup_insert_eq|].
  intros k H1 H2 H3. by rewrite !lookup_insert_ne.
Qed.

(** The theorem at the example document of the layout. *)
Lemma main_output_shape_witness :
  ∃ root out mmw mmh,
    normalize_tree doc_layout_example = Ok root
    ∧ main default_args doc_layout_example = Ok (out, mmw, mmh)
    ∧ tag out = tag root
    ∧ ∃ content uuw uuh per,
        children out
        = content ++ [mkElement "g" ∅
                        [rect_element (of_int (rect_width default_args) * per) uuw uuh
                           (rect_color default_args)]]
        ∧ tag <$> content = tag <$> children root
        ∧ attrib out !! "viewBox" = Some (VNums [0; 0; uuw; uuh])
        ∧ attrib out !! "width" = Some (VLen mmw "mm")
        ∧ attrib out !! "height" = Some (VLen mmh "mm")
        ∧ (∀ k, k ≠ "viewBox" → k ≠ "width" → k ≠ "height" →
                attrib out !! k = attrib root !! k).
Proof.
  destruct (normalize_tree doc_layout_example) as [root| | |] eqn:Hn;
    [|by vm_compute in Hn..].
  destruct (main default_args doc_layout_example) as [[[out mmw] mmh]| | |] eqn:Hm;
    [|by vm_compute in Hm..].
  exists root, out, mmw, mmh. split; [done|]. split; [done|].
  exact (main_output_shape default_args doc_layout_example root out mmw mmh Hn Hm).
Defined.




(** ** The position on the page *)

Lemma decide_svg_xy_unknown mm A4 width height padding pos :
  pos ∉ anchors.*1 → decide_svg_xy mm A4 width height padding pos = None.
Proof.
  intros Hn.
  assert (Hne : ∀ s, s ∈ anchors.*1 → pos ≠ s) by (by intros s Hs ->).
  unfold decide_svg_xy.
  rewrite !bool_decide_eq_false_2; [done|apply Hne; simpl..];
    repeat first [apply list_elem_of_here | apply list_elem_of_further].
Qed.

Lemma decide_svg_xy_known mm A4 width height padding pos :
  pos ∈ anchors.*1 → is_Some (decide_svg_xy mm A4 width height padding pos).
Proof.
  simpl. intros Hin.
  repeat (apply elem_of_cons in Hin as [->|Hin];
          [unfold decide_svg_xy; simpl; by eexists|]).
  by apply elem_of_nil in Hin.
Qed.

Lemma Qc_below_three_negative (p mm y : Qc) :
  y = (p - #3) * mm → 0 < mm → p < #3 → y < 0.
Proof.
  intros -> Hmm Hp.
  pose proof (Qcmult_lt_compat_r _ _ _ Hmm Hp) as Hlt.
  apply Qclt_minus_iff in Hlt. apply Qclt_minus_iff.
  by replace (0 + - ((p - #3) * mm)) with (#3 * mm + - (p * mm)) by ring.
Qed.

(** X23. [decide_svg_xy] returns [None], and raises nothing, exactly for
    the positions that are none of the nine names; for each of the nine it
    returns a pair. *)
Theorem decide_svg_xy_none_iff_unknown_position mm A4 width height padding pos :
  decide_svg_xy mm A4 width height padding pos = None ↔ pos ∉ anchors.*1.
Proof.
  split.
  - intros Hnone Hin.
    apply (decide_svg_xy_known mm A4 width height padding) in Hin.
    rewrite Hnone in Hin. by destruct Hin.
  - apply decide_svg_xy_unknown.
Qed.

(** A position that is not in the row at hand. *)
Ltac other_row :=
  let Hin := fresh in
  intros Hin; exfalso; revert Hin;
  apply (bool_decide_eq_false_1 _); vm_compute; reflexivity.

(** X24. At the end of [main], for each of the nine positions that reach
    it: the indexing of the placement never meets [None]; the drawing is
    turned exactly when it is rendered taller than wide, and its sizes are
    then swapped for the placement; and, the numbers being exact and the
    placed height taken as the height of the drawing, the height coordinate
    passed to the renderer puts the upper edge of the drawing 3 mm below
    the page padding for the positions of the top row, its middle 3 mm
    below the middle of the page for the centre row, and its lower edge at
    the page padding less 3 mm for the bottom row, whatever the sizes: with
    a padding under 3 mm (and a positive [mm]) the coordinate of the bottom
    row is negative, below the lower edge of the page. *)
Theorem place_on_page_shifts_down_three_mm mm A4 rw rh w h p pos :
  let turned := bool_decide (rw < rh) in
  let placed_w := if turned then h else w in
  let placed_h := if turned then w else h in
  ∃ x y0 y,
    decide_svg_xy mm A4 placed_w placed_h p (position_name pos) = Some (x, y0)
    ∧ place_on_page mm A4 rw rh w h p pos = Ok (turned, x, y)
    ∧ (pos ∈ [TL; TC; TR] → y + placed_h * mm = A4.2 - (p + #3) * mm)
    ∧ (pos ∈ [CL; CC; CR] → y + placed_h * mm / 2 = A4.2 / 2 - #3 * mm)
    ∧ (pos ∈ [BL; BC; BR] →
       y = (p - #3) * mm ∧ (0 < mm → p < #3 → y < 0)).
Proof.
  intros turned placed_w placed_h. subst turned placed_w placed_h.
  unfold place_on_page.
  assert (Hy : ∀ a hh : Qc,
            a - (a - hh * mm - p * mm) - hh * mm - #3 * mm = (p - #3) * mm)
    by (intros; ring).
  destruct (bool_decide (rw < rh)), pos; eexists _, _, _;
    (split; [reflexivity|]); (split; [reflexivity|]); cbn [fst snd];
    (split; [first [other_row | intros _; ring]|]);
    (split; [first [other_row | intros _; field]|]);
    first [other_row
          | intros _; split; [apply Hy | apply Qc_below_three_negative, Hy]].
Qed.

(** The theorem at the bottom-right position, for a drawing rendered
    taller than wide, with a padding of 2 mm. *)
Lemma place_on_page_shifts_down_three_mm_witness :
  BR ∈ [BL; BC; BR]
  ∧ ∃ x y0 y,
      decide_svg_xy 1 (#210, #297) #50 #30 2 "BR" = Some (x, y0)
      ∧ place_on_page 1 (#210, #297) #30 #50 #30 #50 2 BR = Ok (true, x, y)
      ∧ y = (2 - #3) * 1
      ∧ (0 < 1 → 2 < #3 → y < 0).
Proof.
  assert (Hin : BR ∈ [BL; BC; BR]) by (by apply (bool_decide_eq_true_1 _)).
  split; [exact Hin|].
  destruct (place_on_page_shifts_down_three_mm 1 (#210, #297) #30 #50 #30 #50 2 BR)
    as (x & y0 & y & Hxy & Hplace & _ & _ & Hrow).
  exists x, y0, y. split; [exact Hxy|]. split; [exact Hplace|]. exact (Hrow Hin).
Defined.

Lemma decide_svg_xy_none_iff_unknown_position_witness :
  ("MID" ∉ anchors.*1)
  ∧ decide_svg_xy 1 (#210, #297) #50 #30 #10 "MID" = None.
Proof.
  assert (Hn : "MID" ∉ anchors.*1) by (by apply (bool_decide_eq_true_1 _)).
  split; [exact Hn|].
  exact (proj2 (decide_svg_xy_none_iff_unknown_position
                  1 (#210, #297) #50 #30 #10 "MID") Hn).
Defined.
